(** * Autocomplete trie: a shallow embedding of [src/trie.py]

    The Python class [Trie] owns a tree of [_Node] objects.  Every node is
    referenced by exactly one parent dictionary, so the in-place mutations of
    the source are rendered here as a purely functional rebuild of the path
    from the root to the node that is touched.

    Modelling choices:
    - a character is an [ascii], a word a [string]; comparisons are the
      code-point comparisons of Python;
    - a Python [dict] is an association list in insertion order (the order
      [items()] observes); keys are unique in every real dictionary, which the
      predicate [wf] records;
    - a score is a finite Python float.  Only comparisons and the sign change
      of the sort key are applied to scores; on finite floats these agree with
      the same operations on the rationals they denote, so scores are [Q];
    - the integer counters are [Z]. *)

From Stdlib Require Import List String Ascii ZArith QArith Bool Lia.
From Stdlib Require Import Permutation Sorted.
Import ListNotations.

Close Scope Q_scope.
Open Scope Z_scope.
Open Scope string_scope.
Open Scope list_scope.

Set Implicit Arguments.

(** ** Python dictionaries keyed by one character *)

Module Dict.

Section Ops.
Variable V : Type.

(** [d.get(k)] *)
Fixpoint get (d : list (ascii * V)) (k : ascii) : option V :=
  match d with
  | [] => None
  | (k', v) :: d' => if Ascii.eqb k' k then Some v else get d' k
  end.

(** [k in d] *)
Definition mem (d : list (ascii * V)) (k : ascii) : bool :=
  match get d k with Some _ => true | None => false end.

(** [d[k] = v]: an existing key keeps its position, a new key goes last. *)
Fixpoint set (d : list (ascii * V)) (k : ascii) (v : V) : list (ascii * V) :=
  match d with
  | [] => [(k, v)]
  | (k', v') :: d' =>
      if Ascii.eqb k' k then (k', v) :: d' else (k', v') :: set d' k v
  end.

(** [del d[k]] *)
Fixpoint del (d : list (ascii * V)) (k : ascii) : list (ascii * V) :=
  match d with
  | [] => []
  | (k', v') :: d' =>
      if Ascii.eqb k' k then del d' k else (k', v') :: del d' k
  end.

(** [d.keys()] and [d.values()] *)
Definition keys (d : list (ascii * V)) : list ascii := map fst d.
Definition values (d : list (ascii * V)) : list V := map snd d.

(** truth value of a dictionary: non-empty *)
Definition nonempty (d : list (ascii * V)) : bool :=
  match d with [] => false | _ => true end.

(** the sum of a measure over the values, used to count nodes *)
Definition total (f : V -> nat) (d : list (ascii * V)) : nat :=
  list_sum (map (fun p => f (snd p)) d).
End Ops.

End Dict.

(** ** Python's [sorted] and tuple comparison *)

(** [sorted] is a stable sort that only uses [<]; a stable insertion sort
    computes the same list. *)
Section Sorted.
Variable A : Type.
Variable ltb : A -> A -> bool.

Fixpoint sorted_insert (x : A) (l : list A) : list A :=
  match l with
  | [] => [x]
  | y :: l' => if ltb y x then y :: sorted_insert x l' else x :: y :: l'
  end.

Definition sorted (l : list A) : list A := fold_right sorted_insert [] l.
End Sorted.

(** [(s1, w1) < (s2, w2)] on (float, str) tuples *)
Definition tuple_ltb (a b : Q * string) : bool :=
  match Qcompare (fst a) (fst b) with
  | Lt => true
  | Gt => false
  | Eq => String.ltb (snd a) (snd b)
  end.

(** ** The standard [heapq] module

    [heapq] belongs to Python's library, not to the repository.  It is
    modelled by its documented contract: [heap[0]] is the smallest item,
    [heappush] adds an item, [heappushpop] pushes the item and then removes
    the smallest one.  The heap is represented by its items in ascending
    order; [Trie.complete] only ever reads its length and finally sorts it
    with a key that is total on distinct words, so the layout of the
    underlying array is not observable. *)
Module heapq.

Definition heappush (heap : list (Q * string)) (item : Q * string)
  : list (Q * string) :=
  sorted_insert tuple_ltb item heap.

(** [if heap and heap[0] < item: item, heap[0] = heap[0], item; sift] *)
Definition heappushpop (heap : list (Q * string)) (item : Q * string)
  : list (Q * string) :=
  match heap with
  | [] => heap
  | top :: rest =>
      if tuple_ltb top item then sorted_insert tuple_ltb item rest else heap
  end.

End heapq.

(** ** Nodes and tries *)

#[local] Unset Elimination Schemes.
Inductive _Node : Type :=
  Node_ { next : list (ascii * _Node); end_ : bool; score : Q }.
#[local] Set Elimination Schemes.

(** [_Node()] *)
Definition new_node : _Node := Node_ [] false 0%Q.

Record Trie : Type :=
  mkTrie { root : _Node; _count_words : Z; _count_nodes : Z }.

(** [Trie()] *)
Definition Trie_init : Trie := mkTrie new_node 0 1.

(** *** [_trace] *)

(** The loop of [_trace], with its two variables [node] and [path].  A path
    entry is [(node, incoming character)]; the root entry carries [''],
    rendered as [None]. *)
Fixpoint trace_loop (text : string) (node : _Node)
    (path : list (_Node * option ascii))
  : option _Node * list (_Node * option ascii) :=
  match text with
  | EmptyString => (Some node, path)
  | String ch text' =>
      match Dict.get (next node) ch with
      | None => (None, [])
      | Some nxt => trace_loop text' nxt (path ++ [(nxt, Some ch)])
      end
  end.

Definition _trace (self : Trie) (text : string)
  : option _Node * list (_Node * option ascii) :=
  trace_loop text (root self) [(root self, None)].

(** *** [insert] *)

(** The descent of [insert] from [node] along [word].  The child reached by
    [ch] is the existing one or a fresh [_Node()], in which case
    [_count_nodes] grows; the node is rebuilt around the updated child. *)
Fixpoint insert_loop (word : string) (freq : Q) (node : _Node)
    (count_words count_nodes : Z) : _Node * Z * Z :=
  match word with
  | EmptyString =>
      (Node_ (next node) true freq,
       (if end_ node then count_words else count_words + 1),
       count_nodes)
  | String ch word' =>
      let '(child, cn) :=
        match Dict.get (next node) ch with
        | Some c => (c, count_nodes)
        | None => (new_node, count_nodes + 1)
        end in
      let '(child', cw', cn') := insert_loop word' freq child count_words cn in
      (Node_ (Dict.set (next node) ch child') (end_ node) (score node),
       cw', cn')
  end.

Definition insert (self : Trie) (word : string) (freq : Q) : Trie :=
  let '(r, cw, cn) :=
    insert_loop word freq (root self) (_count_words self) (_count_nodes self) in
  mkTrie r cw cn.

(** *** [remove] *)

(** One iteration of the pruning loop [for i in range(len(path) - 1, 0, -1)]
    at the entries [path[i - 1] = (parent_node, _)] and
    [path[i] = (current_node, current_char)].  [current_node] is the node as
    the iterations below have left it and [running] tells whether the loop
    has not met a [break] yet.  Where the source leaves the parent untouched,
    the parent is relinked to the rebuilt [current_node]. *)
Definition prune_step (parent_node : _Node) (current_char : option ascii)
    (below : _Node * bool * Z) : _Node * bool * Z :=
  let '(current_node, running, count_nodes) := below in
  let relink :=
    match current_char with
    | Some c =>
        Node_ (Dict.set (next parent_node) c current_node)
              (end_ parent_node) (score parent_node)
    | None => parent_node
    end in
  if running then
    if Dict.nonempty (next current_node) || end_ current_node
    then (relink, false, count_nodes)
    else
      match current_char with
      | Some c =>
          if Dict.mem (next parent_node) c
          then (Node_ (Dict.del (next parent_node) c)
                      (end_ parent_node) (score parent_node),
                true, count_nodes - 1)
          else (parent_node, false, count_nodes)
      | None => (parent_node, false, count_nodes)
      end
  else (relink, false, count_nodes).

(** The whole loop, run on the path from its deepest entry upwards.  [last]
    is the node that [remove] has just unmarked, which the last path entry
    refers to. *)
Fixpoint prune (path : list (_Node * option ascii)) (last : _Node)
    (count_nodes : Z) : _Node * bool * Z :=
  match path with
  | [] => (last, true, count_nodes)
  | (parent_node, _) :: tl =>
      match tl with
      | [] => (last, true, count_nodes)
      | (_, current_char) :: _ =>
          prune_step parent_node current_char (prune tl last count_nodes)
      end
  end.

Definition remove (self : Trie) (word : string) : bool * Trie :=
  match _trace self word with
  | (None, _) => (false, self)
  | (Some node, path) =>
      if negb (end_ node) then (false, self)
      else
        let node' := Node_ (next node) false 0%Q in
        let '(r, _, cn) := prune path node' (_count_nodes self) in
        (true, mkTrie r (_count_words self - 1) cn)
  end.

(** *** [contains] *)

Definition contains (self : Trie) (word : string) : bool :=
  match _trace self word with
  | (Some node, _) => end_ node
  | (None, _) => false
  end.

(** *** [complete] *)

(** The nested function [dfs]; [heap] is the closure variable it mutates.
    The recursive call is made on [n.next[c]] for each [c] of the sorted
    keys: [calls] holds, under each key, the visit of the child stored
    under that key, so that looking [c] up in [calls] is the call
    [dfs(n.next[c], ...)] (lemma [dfs_eq]). *)
Fixpoint dfs (k : Z) (n : _Node) (word : string) (heap : list (Q * string))
  : list (Q * string) :=
  let heap1 :=
    if end_ n then
      let pair := (score n, word) in
      if Z.ltb (Z.of_nat (List.length heap)) k then heapq.heappush heap pair
      else heapq.heappushpop heap pair
    else heap in
  let calls := map (fun p => (fst p, dfs k (snd p))) (next n) in
  fold_left
    (fun h c =>
       match Dict.get calls c with
       | Some call => call (word ++ String c "")%string h
       | None => h
       end)
    (sorted Ascii.ltb (Dict.keys (next n))) heap1.

(** the sort key [lambda x: (-x[0], x[1])] *)
Definition key (x : Q * string) : Q * string := (Qopp (fst x), snd x).

Definition key_ltb (x y : Q * string) : bool := tuple_ltb (key x) (key y).

Definition complete (self : Trie) (prefix : string) (k : Z) : list string :=
  match _trace self prefix with
  | (None, _) => []
  | (Some node, _) =>
      let heap := dfs k node prefix [] in
      let results := sorted key_ltb heap in
      map snd results
  end.

(** *** [stats] *)

Fixpoint depth (n : _Node) : nat :=
  match next n with
  | [] => 0%nat
  | _ => (1 + list_max (map (fun p => depth (snd p)) (next n)))%nat
  end.

Definition stats (self : Trie) : Z * nat * Z :=
  (_count_words self, depth (root self), _count_nodes self).

(** *** [items] *)

Fixpoint gather (n : _Node) (text : string) (output : list (string * Q))
  : list (string * Q) :=
  let output1 := if end_ n then output ++ [(text, score n)] else output in
  fold_left
    (fun out (call : ascii * (string -> list (string * Q) -> list (string * Q))) =>
       snd call (text ++ String (fst call) "")%string out)
    (map (fun p => (fst p, gather (snd p))) (next n)) output1.

Definition items (self : Trie) : list (string * Q) := gather (root self) "" [].

(** ** Sequences of calls *)

(** The six public operations, and their effect on the trie.  Only [insert]
    and [remove] assign to a field. *)
Inductive call : Type :=
| Insert (word : string) (freq : Q)
| Remove (word : string)
| Contains (word : string)
| Complete (prefix : string) (k : Z)
| Stats
| Items.

Definition step (self : Trie) (c : call) : Trie :=
  match c with
  | Insert word freq => insert self word freq
  | Remove word => snd (remove self word)
  | Contains _ | Complete _ _ | Stats | Items => self
  end.

Definition run (calls : list call) : Trie := fold_left step calls Trie_init.

(** [insert] of each pair in turn, and [remove] of each word in turn with the
    list of the returned booleans. *)
Definition insert_all (self : Trie) (pairs : list (string * Q)) : Trie :=
  fold_left (fun t p => insert t (fst p) (snd p)) pairs self.

Fixpoint remove_all (self : Trie) (words : list string) : list bool * Trie :=
  match words with
  | [] => ([], self)
  | w :: ws =>
      let '(b, t) := remove self w in
      let '(bs, t') := remove_all t ws in
      (b :: bs, t')
  end.

(** ** Notions used by the statements *)

(** The node reached from [node] by the characters of [text]. *)
Fixpoint trace_node (node : _Node) (text : string) : option _Node :=
  match text with
  | EmptyString => Some node
  | String ch text' =>
      match Dict.get (next node) ch with
      | None => None
      | Some nxt => trace_node nxt text'
      end
  end.

(** The path entries that [_trace] appends below [node]. *)
Fixpoint trace_path (node : _Node) (text : string)
  : list (_Node * option ascii) :=
  match text with
  | EmptyString => []
  | String ch text' =>
      match Dict.get (next node) ch with
      | None => []
      | Some nxt => (nxt, Some ch) :: trace_path nxt text'
      end
  end.

(** The score stored for [word] below [node], if [word] is stored. *)
Definition score_at (node : _Node) (word : string) : option Q :=
  match trace_node node word with
  | Some n => if end_ n then Some (score n) else None
  | None => None
  end.

Definition score_of (self : Trie) (word : string) : option Q :=
  score_at (root self) word.

(** The node that [insert] rebuilds, without the counters. *)
Fixpoint insert_node (word : string) (freq : Q) (node : _Node) : _Node :=
  match word with
  | EmptyString => Node_ (next node) true freq
  | String ch word' =>
      let child :=
        match Dict.get (next node) ch with
        | Some c => c
        | None => new_node
        end in
      Node_ (Dict.set (next node) ch (insert_node word' freq child))
            (end_ node) (score node)
  end.

(** The pruning loop as a recursion on the word. *)
Fixpoint prune_rec (node : _Node) (text : string) (last : _Node)
    (count_nodes : Z) : _Node * bool * Z :=
  match text with
  | EmptyString => (last, true, count_nodes)
  | String ch text' =>
      match Dict.get (next node) ch with
      | None => (last, true, count_nodes)
      | Some nxt =>
          prune_step node (Some ch) (prune_rec nxt text' last count_nodes)
      end
  end.

(** Number of nodes and of terminal nodes of the tree below a node. *)
Fixpoint size (n : _Node) : nat :=
  S (list_sum (map (fun p => size (snd p)) (next n))).

Fixpoint terminals (n : _Node) : nat :=
  ((if end_ n then 1 else 0) +
   list_sum (map (fun p => terminals (snd p)) (next n)))%nat.

(** Keys are unique in every dictionary of the tree. *)
Fixpoint nodupb (l : list ascii) : bool :=
  match l with
  | [] => true
  | a :: l' => negb (existsb (Ascii.eqb a) l') && nodupb l'
  end.

Fixpoint wf (n : _Node) : bool :=
  nodupb (Dict.keys (next n)) && forallb (fun p => wf (snd p)) (next n).

(** A node is in use when it has a child or marks a word; [live n] says that
    every node strictly below [n] is in use. *)
Definition in_use (n : _Node) : bool := Dict.nonempty (next n) || end_ n.

Fixpoint live (n : _Node) : bool :=
  forallb (fun p => in_use (snd p) && live (snd p)) (next n).

(** The representation invariant of a trie. *)
Definition invariant (self : Trie) : Prop :=
  wf (root self) = true /\ live (root self) = true /\
  _count_words self = Z.of_nat (terminals (root self)) /\
  _count_nodes self = Z.of_nat (size (root self)).

(** The tree without its scores. *)
#[local] Unset Elimination Schemes.
Inductive shape_t : Type :=
  Shape (children : list (ascii * shape_t)) (terminal : bool).

Fixpoint shape (n : _Node) : shape_t :=
  Shape (map (fun p => (fst p, shape (snd p))) (next n)) (end_ n).

(** The height as the specification words it: a node without children has
    height 0, any other node one more than the greatest height of a child. *)
Inductive height_is : _Node -> nat -> Prop :=
| height_leaf : forall n, next n = [] -> height_is n 0
| height_inner : forall n hs m,
    next n <> [] ->
    Forall2 (fun p h => height_is (snd p) h) (next n) hs ->
    In m hs -> Forall (fun h => (h <= m)%nat) hs ->
    height_is n (S m).

(** The pairs that [dfs] offers to the heap, in the order of the visit. *)
Fixpoint collect (n : _Node) (word : string) : list (Q * string) :=
  let calls := map (fun p => (fst p, collect (snd p))) (next n) in
  (if end_ n then [(score n, word)] else []) ++
  flat_map
    (fun c =>
       match Dict.get calls c with
       | Some call => call (word ++ String c "")%string
       | None => []
       end)
    (sorted Ascii.ltb (Dict.keys (next n))).

#[local] Set Elimination Schemes.

(** What [dfs] does with one pair. *)
Definition offer (k : Z) (heap : list (Q * string)) (pair : Q * string)
  : list (Q * string) :=
  if Z.ltb (Z.of_nat (List.length heap)) k then heapq.heappush heap pair
  else heapq.heappushpop heap pair.

(** [a <= b] on pairs, the negation of [b < a]. *)
Definition tuple_le (a b : Q * string) : Prop :=
  Qlt (fst a) (fst b) \/
  (Qeq (fst a) (fst b) /\ String.leb (snd a) (snd b) = true).

(** The order of the results: higher score first, then the smaller word. *)
Definition ranked (self : Trie) (w1 w2 : string) : Prop :=
  exists s1 s2 : Q,
    score_of self w1 = Some s1 /\ score_of self w2 = Some s2 /\
    (Qlt s2 s1 \/ (Qeq s1 s2 /\ String.leb w1 w2 = true)).

(** The pairs that [gather] appends to [output], in the order of the visit:
    the children are met in the order of the dictionary. *)
Fixpoint listing (n : _Node) (text : string) : list (string * Q) :=
  (if end_ n then [(text, score n)] else []) ++
  flat_map
    (fun call : ascii * (string -> list (string * Q)) =>
       snd call (text ++ String (fst call) "")%string)
    (map (fun p => (fst p, listing (snd p))) (next n)).

(** A node that marks no word carries the score [0.0] that [_Node()] and
    [remove] give it. *)
Definition is_zero (q : Q) : bool :=
  Z.eqb (Qnum q) 0 && Pos.eqb (Qden q) 1.

Fixpoint zeroed (n : _Node) : bool :=
  (end_ n || is_zero (score n)) && forallb (fun p => zeroed (snd p)) (next n).

(** The pairs offered to the heap by [complete(prefix, k)]. *)
Definition offered (self : Trie) (prefix : string) : list (Q * string) :=
  match trace_node (root self) prefix with
  | Some node => collect node prefix
  | None => []
  end.

(** A pair that has been offered is in the heap, or the heap is full and
    holds no smaller pair. *)
Definition kept_or_below (k : Z) (h : list (Q * string)) (z : Q * string)
  : Prop :=
  In z h \/
  (k <= Z.of_nat (List.length h) /\ forall y, In y h -> tuple_le z y).

(** * Properties *)

(** ** Dictionaries *)

Module DictFacts.
Import Dict.

Section Facts.
Variable V : Type.
Implicit Types (d : list (ascii * V)) (k : ascii) (v : V).

Lemma get_set_eq d k v : get (set d k v) k = Some v.
Proof.
  induction d as [|[k' v'] d IH]; simpl.
  - now rewrite Ascii.eqb_refl.
  - destruct (Ascii.eqb k' k) eqn:E; simpl; now rewrite E.
Qed.

Lemma get_set_ne d k k' v : k <> k' -> get (set d k v) k' = get d k'.
Proof.
  intros Hne. induction d as [|[k0 v0] d IH]; simpl.
  - destruct (Ascii.eqb_spec k k'); congruence.
  - destruct (Ascii.eqb_spec k0 k); simpl.
    + subst. destruct (Ascii.eqb_spec k k'); congruence.
    + now rewrite IH.
Qed.

Lemma get_del_eq d k : get (del d k) k = None.
Proof.
  induction d as [|[k' v'] d IH]; simpl; auto.
  destruct (Ascii.eqb k' k) eqn:E; simpl; auto. now rewrite E.
Qed.

Lemma get_del_ne d k k' : k <> k' -> get (del d k) k' = get d k'.
Proof.
  intros Hne. induction d as [|[k0 v0] d IH]; simpl; auto.
  destruct (Ascii.eqb_spec k0 k); simpl.
  - subst. destruct (Ascii.eqb_spec k k'); congruence.
  - now rewrite IH.
Qed.

Lemma get_In d k v : get d k = Some v -> In (k, v) d.
Proof.
  induction d as [|[k' v'] d IH]; simpl; [discriminate|].
  destruct (Ascii.eqb_spec k' k); intros H.
  - inversion H; subst; auto.
  - auto.
Qed.

Lemma get_None_keys d k : get d k = None <-> ~ In k (keys d).
Proof.
  unfold keys. induction d as [|[k' v'] d IH]; simpl.
  - tauto.
  - destruct (Ascii.eqb_spec k' k).
    + split; [discriminate | intros H; exfalso; auto].
    + rewrite IH. tauto.
Qed.

Lemma get_Some_keys d k v : get d k = Some v -> In k (keys d).
Proof. intros H. apply get_In in H. apply (in_map fst) in H. exact H. Qed.

Lemma keys_get d k : In k (keys d) -> exists v, get d k = Some v.
Proof.
  intros H. destruct (get d k) eqn:E; eauto.
  apply get_None_keys in E. contradiction.
Qed.

Lemma keys_set_mem d k v v0 : get d k = Some v0 -> keys (set d k v) = keys d.
Proof.
  unfold keys. induction d as [|[k' v'] d IH]; simpl; [discriminate|].
  destruct (Ascii.eqb_spec k' k); simpl; intros H; auto.
  now rewrite IH.
Qed.

Lemma keys_set_new d k v : get d k = None -> keys (set d k v) = keys d ++ [k].
Proof.
  unfold keys. induction d as [|[k' v'] d IH]; simpl; auto.
  destruct (Ascii.eqb_spec k' k); simpl; intros H; [discriminate|].
  now rewrite IH.
Qed.

Lemma keys_del_incl d k k' : In k' (keys (del d k)) -> In k' (keys d).
Proof.
  unfold keys. induction d as [|[k0 v0] d IH]; simpl; auto.
  destruct (Ascii.eqb k0 k); simpl; tauto.
Qed.

Lemma In_set d k v k' v' :
  In (k', v') (set d k v) -> (k' = k /\ v' = v) \/ In (k', v') d.
Proof.
  induction d as [|[k0 v0] d IH]; simpl.
  - intros [H|[]]. inversion H; auto.
  - destruct (Ascii.eqb_spec k0 k); simpl; intros [H|H].
    + inversion H; subst; auto.
    + auto.
    + auto.
    + destruct (IH H); auto.
Qed.

Lemma In_del d k k' v' : In (k', v') (del d k) -> In (k', v') d.
Proof.
  induction d as [|[k0 v0] d IH]; simpl; auto.
  destruct (Ascii.eqb k0 k); simpl; tauto.
Qed.

Lemma set_nonempty d k v : nonempty (set d k v) = true.
Proof. destruct d as [|[k' v'] d]; simpl; auto. now destruct (Ascii.eqb k' k). Qed.

Lemma keys_del d k :
  keys (del d k) = filter (fun k' => negb (Ascii.eqb k' k)) (keys d).
Proof.
  unfold keys. induction d as [|[k0 v0] d IH]; simpl; auto.
  destruct (Ascii.eqb k0 k); simpl; now rewrite IH.
Qed.

Lemma NoDup_keys_set d k v : NoDup (keys d) -> NoDup (keys (set d k v)).
Proof.
  intros H. destruct (get d k) as [v0|] eqn:E.
  - now rewrite keys_set_mem with (v0 := v0).
  - rewrite keys_set_new by exact E. apply get_None_keys in E.
    apply NoDup_rev in H. rewrite <- (rev_involutive (keys d ++ [k])).
    apply NoDup_rev. rewrite rev_app_distr. simpl. constructor; auto.
    now rewrite <- in_rev.
Qed.

Lemma NoDup_keys_del d k : NoDup (keys d) -> NoDup (keys (del d k)).
Proof. intros H. rewrite keys_del. now apply NoDup_filter. Qed.

Lemma mem_get d k : mem d k = true <-> exists v, get d k = Some v.
Proof.
  unfold mem. destruct (get d k); split; eauto; try discriminate.
  intros [v H]; discriminate.
Qed.
End Facts.

(** Sums over the values of a dictionary with unique keys. *)
Section Sums.
Variable V : Type.
Variable f : V -> nat.
Implicit Types (d : list (ascii * V)) (k : ascii) (v : V).

Lemma total_set_mem d k v v0 :
  get d k = Some v0 -> (total f (set d k v) + f v0 = total f d + f v)%nat.
Proof.
  unfold total. induction d as [|[k' v'] d IH]; simpl; [discriminate|].
  destruct (Ascii.eqb_spec k' k); simpl; intros H.
  - inversion H; subst. lia.
  - specialize (IH H). lia.
Qed.

Lemma total_set_new d k v :
  get d k = None -> total f (set d k v) = (total f d + f v)%nat.
Proof.
  unfold total. induction d as [|[k' v'] d IH]; simpl; intros H.
  - lia.
  - destruct (Ascii.eqb_spec k' k); simpl; [discriminate|].
    rewrite (IH H). lia.
Qed.

Lemma del_absent d k : get d k = None -> del d k = d.
Proof.
  induction d as [|[k' v'] d IH]; simpl; auto.
  destruct (Ascii.eqb_spec k' k); [discriminate|].
  intros H. now rewrite IH.
Qed.

Lemma total_del d k v0 :
  nodupb (keys d) = true -> get d k = Some v0 ->
  (total f (del d k) + f v0 = total f d)%nat.
Proof.
  unfold total. induction d as [|[k' v'] d IH]; simpl; [discriminate|].
  intros Hnd. apply andb_true_iff in Hnd as [Hk Hnd].
  destruct (Ascii.eqb_spec k' k); simpl; intros H.
  - inversion H; subst. rewrite del_absent; [lia|].
    apply get_None_keys. intros Hin.
    apply negb_true_iff in Hk. unfold keys in *.
    assert (existsb (Ascii.eqb k) (map fst d) = true); [|congruence].
    apply existsb_exists. exists k. split; auto. apply Ascii.eqb_refl.
  - specialize (IH Hnd H). lia.
Qed.
End Sums.

End DictFacts.

(** ** Induction on nodes and unfolding equations *)

Lemma Node_induction (P : _Node -> Prop) :
  (forall nx e s, (forall c ch, In (c, ch) nx -> P ch) -> P (Node_ nx e s)) ->
  forall n, P n.
Proof.
  intros H. fix IH 1. intros [nx e s]. apply H.
  refine ((fix aux (l : list (ascii * _Node))
             : forall c ch, In (c, ch) l -> P ch :=
             match l with
             | [] => fun c ch F => match F with end
             | p :: l' => fun c ch HIn => _
             end) nx).
  destruct HIn as [E | I].
  - destruct p as [c' ch']. replace ch with ch' by congruence. apply IH.
  - exact (aux l' c ch I).
Qed.

Lemma size_eq n : size n = S (Dict.total size (next n)).
Proof. destruct n; reflexivity. Qed.

Lemma terminals_eq n :
  terminals n =
  ((if end_ n then 1 else 0) + Dict.total terminals (next n))%nat.
Proof. destruct n; reflexivity. Qed.

Lemma wf_eq n :
  wf n = nodupb (Dict.keys (next n)) && forallb (fun p => wf (snd p)) (next n).
Proof. destruct n; reflexivity. Qed.

Lemma live_eq n :
  live n = forallb (fun p => in_use (snd p) && live (snd p)) (next n).
Proof. destruct n; reflexivity. Qed.

Lemma nodupb_NoDup l : nodupb l = true <-> NoDup l.
Proof.
  induction l as [|a l IH]; simpl.
  - split; auto using NoDup_nil.
  - rewrite andb_true_iff, negb_true_iff, IH. split.
    + intros [Hn Hd]. constructor; auto. intros Hin.
      assert (existsb (Ascii.eqb a) l = true); [|congruence].
      apply existsb_exists. exists a. split; auto. apply Ascii.eqb_refl.
    + intros Hnd. inversion Hnd; subst. split; auto.
      destruct (existsb (Ascii.eqb a) l) eqn:E; auto.
      apply existsb_exists in E as [x [Hin Hx]].
      apply Ascii.eqb_eq in Hx. subst. contradiction.
Qed.

Lemma wf_child n c ch : wf n = true -> In (c, ch) (next n) -> wf ch = true.
Proof.
  rewrite wf_eq, andb_true_iff. intros [_ H] Hin.
  rewrite forallb_forall in H. exact (H _ Hin).
Qed.

Lemma wf_keys n : wf n = true -> nodupb (Dict.keys (next n)) = true.
Proof. rewrite wf_eq, andb_true_iff. tauto. Qed.

Lemma live_child n c ch :
  live n = true -> In (c, ch) (next n) -> in_use ch = true /\ live ch = true.
Proof.
  rewrite live_eq. intros H Hin. rewrite forallb_forall in H.
  apply andb_true_iff. exact (H _ Hin).
Qed.

(** ** [_trace] and the pruning loop as recursions on the word *)

Lemma trace_loop_eq text : forall node path,
  trace_loop text node path =
  match trace_node node text with
  | Some n => (Some n, path ++ trace_path node text)
  | None => (None, [])
  end.
Proof.
  induction text as [|ch text IH]; intros node path; simpl.
  - now rewrite app_nil_r.
  - destruct (Dict.get (next node) ch) as [nxt|]; auto.
    rewrite IH. destruct (trace_node nxt text); auto.
    now rewrite <- app_assoc.
Qed.

Lemma _trace_eq self text :
  _trace self text =
  match trace_node (root self) text with
  | Some n => (Some n, (root self, None) :: trace_path (root self) text)
  | None => (None, [])
  end.
Proof. unfold _trace. now rewrite trace_loop_eq. Qed.

Lemma fst_trace self text : fst (_trace self text) = trace_node (root self) text.
Proof. rewrite _trace_eq. now destruct (trace_node (root self) text). Qed.

Lemma prune_path text : forall node inc last cn m,
  trace_node node text = Some m ->
  prune ((node, inc) :: trace_path node text) last cn =
  prune_rec node text last cn.
Proof.
  induction text as [|ch text IH]; intros node inc last cn m; simpl; auto.
  destruct (Dict.get (next node) ch) as [nxt|]; [|discriminate].
  intros H. now rewrite (IH nxt (Some ch) last cn m H).
Qed.

Lemma remove_eq self word :
  remove self word =
  match trace_node (root self) word with
  | Some m =>
      if end_ m then
        let '(r, _, cn) :=
          prune_rec (root self) word (Node_ (next m) false 0%Q)
                    (_count_nodes self) in
        (true, mkTrie r (_count_words self - 1) cn)
      else (false, self)
  | None => (false, self)
  end.
Proof.
  unfold remove. rewrite _trace_eq.
  destruct (trace_node (root self) word) as [m|] eqn:E; auto.
  destruct (end_ m); cbv [negb]; auto.
  now rewrite (prune_path word (root self) None _ _ E).
Qed.

Lemma contains_eq self word :
  contains self word =
  match trace_node (root self) word with
  | Some m => end_ m
  | None => false
  end.
Proof.
  unfold contains. rewrite _trace_eq.
  now destruct (trace_node (root self) word).
Qed.

Lemma contains_score_of self word :
  contains self word = true <-> exists s, score_of self word = Some s.
Proof.
  rewrite contains_eq. unfold score_of, score_at.
  destruct (trace_node (root self) word) as [m|].
  - destruct (end_ m); split; eauto; try discriminate.
    intros [s H]; discriminate.
  - split; [discriminate | intros [s H]; discriminate].
Qed.

Lemma contains_false_score_of self word :
  contains self word = false <-> score_of self word = None.
Proof.
  rewrite contains_eq. unfold score_of, score_at.
  destruct (trace_node (root self) word) as [m|]; [|tauto].
  destruct (end_ m); split; auto; discriminate.
Qed.

(** ** [insert] *)

Lemma size_new_node : size new_node = 1%nat.
Proof. reflexivity. Qed.

Lemma insert_loop_eq word freq : forall node cw cn,
  insert_loop word freq node cw cn =
  (insert_node word freq node,
   cw + Z.of_nat (terminals (insert_node word freq node))
      - Z.of_nat (terminals node),
   cn + Z.of_nat (size (insert_node word freq node)) - Z.of_nat (size node)).
Proof.
  induction word as [|ch word IH]; intros node cw cn.
  - cbn [insert_loop insert_node].
    rewrite (terminals_eq node), (size_eq node).
    rewrite (terminals_eq (Node_ _ _ _)), (size_eq (Node_ _ _ _)).
    cbn [next end_].
    destruct (end_ node); (f_equal; [f_equal|]); lia.
  - cbn [insert_loop insert_node].
    destruct (Dict.get (next node) ch) as [c|] eqn:E.
    + rewrite IH.
      pose proof (DictFacts.total_set_mem terminals _ _
                    (insert_node word freq c) E) as Ht.
      pose proof (DictFacts.total_set_mem size _ _
                    (insert_node word freq c) E) as Hs.
      rewrite (terminals_eq node), (size_eq node).
      rewrite (terminals_eq (Node_ _ _ _)), (size_eq (Node_ _ _ _)).
      cbn [next end_]. (f_equal; [f_equal|]); lia.
    + rewrite IH.
      pose proof (DictFacts.total_set_new terminals _ _
                    (insert_node word freq new_node) E) as Ht.
      pose proof (DictFacts.total_set_new size _ _
                    (insert_node word freq new_node) E) as Hs.
      rewrite (terminals_eq node), (size_eq node).
      rewrite (terminals_eq (Node_ _ _ _)), (size_eq (Node_ _ _ _)).
      cbn [next end_]. rewrite Ht, Hs.
      change (terminals new_node) with 0%nat.
      change (size new_node) with 1%nat.
      (f_equal; [f_equal|]); lia.
Qed.

Lemma insert_eq self word freq :
  insert self word freq =
  let r := insert_node word freq (root self) in
  mkTrie r
    (_count_words self + Z.of_nat (terminals r) - Z.of_nat (terminals (root self)))
    (_count_nodes self + Z.of_nat (size r) - Z.of_nat (size (root self))).
Proof. unfold insert. now rewrite insert_loop_eq. Qed.

Lemma score_at_new_node w : score_at new_node w = None.
Proof. destruct w; reflexivity. Qed.

Lemma score_at_cons node ch w :
  score_at node (String ch w) =
  match Dict.get (next node) ch with
  | Some nxt => score_at nxt w
  | None => None
  end.
Proof. unfold score_at. simpl. now destruct (Dict.get (next node) ch). Qed.

Lemma score_at_insert word freq : forall node w,
  score_at (insert_node word freq node) w =
  if String.eqb w word then Some freq else score_at node w.
Proof.
  induction word as [|ch word IH]; intros node w.
  - destruct w as [|c w]; simpl.
    + reflexivity.
    + now rewrite !score_at_cons.
  - destruct w as [|c w]; cbn [insert_node String.eqb].
    + reflexivity.
    + rewrite !score_at_cons. cbn [next].
      destruct (Ascii.eqb_spec c ch) as [->|Hne].
      * rewrite DictFacts.get_set_eq, IH.
        destruct (String.eqb w word); auto.
        destruct (Dict.get (next node) ch); auto using score_at_new_node.
      * rewrite DictFacts.get_set_ne by congruence. reflexivity.
Qed.

Lemma in_use_insert word freq node : in_use (insert_node word freq node) = true.
Proof.
  destruct word; unfold in_use; simpl.
  - apply orb_true_r.
  - now rewrite DictFacts.set_nonempty.
Qed.

Lemma forallb_set (g : _Node -> bool) d k v :
  forallb (fun p => g (snd p)) d = true -> g v = true ->
  forallb (fun p => g (snd p)) (Dict.set d k v) = true.
Proof.
  intros Hd Hv. apply forallb_forall. intros [k' v'] Hin.
  apply DictFacts.In_set in Hin as [[_ ->]|Hin]; auto.
  rewrite forallb_forall in Hd. exact (Hd _ Hin).
Qed.

Lemma forallb_del (g : _Node -> bool) d k :
  forallb (fun p => g (snd p)) d = true ->
  forallb (fun p => g (snd p)) (Dict.del d k) = true.
Proof.
  intros Hd. apply forallb_forall. intros [k' v'] Hin.
  apply DictFacts.In_del in Hin.
  rewrite forallb_forall in Hd. exact (Hd _ Hin).
Qed.

Lemma wf_new_node : wf new_node = true.
Proof. reflexivity. Qed.

Lemma live_new_node : live new_node = true.
Proof. reflexivity. Qed.

Lemma wf_insert word freq : forall node,
  wf node = true -> wf (insert_node word freq node) = true.
Proof.
  induction word as [|ch word IH]; intros node Hwf.
  - rewrite wf_eq in *. exact Hwf.
  - cbn [insert_node]. rewrite wf_eq. cbn [next].
    rewrite wf_eq in Hwf. apply andb_true_iff in Hwf as [Hk Hc].
    apply andb_true_iff. split.
    + apply nodupb_NoDup, DictFacts.NoDup_keys_set, nodupb_NoDup, Hk.
    + apply forallb_set; auto. apply IH.
      destruct (Dict.get (next node) ch) as [c|] eqn:E; auto using wf_new_node.
      apply DictFacts.get_In in E. rewrite forallb_forall in Hc.
      exact (Hc _ E).
Qed.

Lemma live_insert word freq : forall node,
  live node = true -> live (insert_node word freq node) = true.
Proof.
  induction word as [|ch word IH]; intros node Hl.
  - rewrite live_eq in *. exact Hl.
  - cbn [insert_node]. rewrite live_eq. cbn [next].
    rewrite live_eq in Hl.
    apply (forallb_set (fun n => in_use n && live n)); auto.
    rewrite in_use_insert. simpl. apply IH.
    destruct (Dict.get (next node) ch) as [c|] eqn:E; auto using live_new_node.
    apply DictFacts.get_In in E. rewrite forallb_forall in Hl.
    specialize (Hl _ E). apply andb_true_iff in Hl. tauto.
Qed.

(** ** [remove] *)

Lemma not_in_use n :
  in_use n = false ->
  size n = 1%nat /\ terminals n = 0%nat /\ forall w, score_at n w = None.
Proof.
  unfold in_use. intros H. apply orb_false_iff in H as [Hn He].
  rewrite size_eq, terminals_eq, He.
  destruct (next n) eqn:E; [|discriminate].
  repeat split. intros [|c w]; unfold score_at; simpl.
  - now rewrite He.
  - now rewrite E.
Qed.

Lemma String_eqb_cons c w c' w' :
  String.eqb (String c w) (String c' w') = Ascii.eqb c c' && String.eqb w w'.
Proof.
  simpl. destruct (Ascii.eqb c c'); reflexivity.
Qed.

(** What the pruning loop returns for a stored word: the rebuilt node keeps
    unique keys and nodes in use, the counter follows the number of nodes,
    one terminal node is gone, and only the removed word changes its
    score. *)
Lemma prune_rec_sound text : forall node m cn r running cn',
  trace_node node text = Some m -> end_ m = true ->
  wf node = true -> live node = true ->
  prune_rec node text (Node_ (next m) false 0%Q) cn = (r, running, cn') ->
  wf r = true /\ live r = true /\
  (running = false -> in_use r = true) /\
  cn' = cn + Z.of_nat (size r) - Z.of_nat (size node) /\
  (terminals r + 1 = terminals node)%nat /\
  (forall w, score_at r w = if String.eqb w text then None else score_at node w).
Proof.
  induction text as [|ch text IH];
    intros node m cn r running cn' Htr Hend Hwf Hlive Hp.
  - simpl in Htr, Hp. inversion Htr; subst m. inversion Hp; subst.
    rewrite wf_eq, live_eq, size_eq, terminals_eq in *.
    rewrite (size_eq node), (terminals_eq node), Hend. cbn [next end_].
    repeat split; auto; try discriminate; try lia.
    intros [|c w]; [reflexivity|].
    now rewrite !score_at_cons.
  - cbn [trace_node prune_rec] in Htr, Hp.
    destruct (Dict.get (next node) ch) as [nxt|] eqn:E; [|discriminate].
    pose proof (DictFacts.get_In _ _ E) as Hin.
    assert (Hwn : wf nxt = true) by (eapply wf_child; eauto).
    destruct (live_child _ _ _ Hlive Hin) as [_ Hln].
    destruct (prune_rec nxt text (Node_ (next m) false 0%Q) cn)
      as [[cur run1] cn1] eqn:Hrec.
    destruct (IH nxt m cn cur run1 cn1 Htr Hend Hwn Hln Hrec)
      as (Hwc & Hlc & Hrun & Hcn & Hterm & Hsc).
    pose proof (wf_keys _ Hwf) as Hk.
    rewrite wf_eq in Hwf. apply andb_true_iff in Hwf as [_ Hwch].
    rewrite live_eq in Hlive.
    assert (Hrelink :
      in_use cur = true ->
      let r0 := Node_ (Dict.set (next node) ch cur) (end_ node) (score node) in
      wf r0 = true /\ live r0 = true /\
      (false = false -> in_use r0 = true) /\
      cn1 = cn + Z.of_nat (size r0) - Z.of_nat (size node) /\
      (terminals r0 + 1 = terminals node)%nat /\
      (forall w, score_at r0 w =
                 if String.eqb w (String ch text) then None else score_at node w)).
    { intros Hu r0. subst r0.
      pose proof (DictFacts.total_set_mem size _ _ cur E) as Hs.
      pose proof (DictFacts.total_set_mem terminals _ _ cur E) as Ht.
      rewrite wf_eq, live_eq.
      rewrite (size_eq (Node_ _ _ _)), (terminals_eq (Node_ _ _ _)).
      rewrite (size_eq node), (terminals_eq node). cbn [next end_].
      repeat split.
      - apply andb_true_iff. split.
        + apply nodupb_NoDup, DictFacts.NoDup_keys_set, nodupb_NoDup, Hk.
        + now apply forallb_set.
      - apply (forallb_set (fun n => in_use n && live n)); auto.
        now rewrite Hu, Hlc.
      - intros _. unfold in_use. cbn [next].
        now rewrite DictFacts.set_nonempty.
      - lia.
      - lia.
      - intros [|c w]; [reflexivity|].
        rewrite !score_at_cons, String_eqb_cons. cbn [next].
        destruct (Ascii.eqb_spec c ch) as [->|Hne].
        + rewrite DictFacts.get_set_eq, E, Hsc. reflexivity.
        + rewrite DictFacts.get_set_ne by congruence. reflexivity. }
    unfold prune_step in Hp. fold (in_use cur) in Hp.
    destruct run1.
    + destruct (in_use cur) eqn:Hu.
      * inversion Hp; subst. now apply Hrelink.
      * assert (Hm : Dict.mem (next node) ch = true)
          by (apply DictFacts.mem_get; eauto).
        rewrite Hm in Hp. inversion Hp; subst. clear Hp Hrelink.
        destruct (not_in_use _ Hu) as (Hs1 & Ht0 & Hsn).
        pose proof (DictFacts.total_del size _ _ Hk E) as Hs.
        pose proof (DictFacts.total_del terminals _ _ Hk E) as Ht.
        rewrite wf_eq, live_eq.
        rewrite (size_eq (Node_ _ _ _)), (terminals_eq (Node_ _ _ _)).
        rewrite (size_eq node), (terminals_eq node). cbn [next end_].
        repeat split.
        -- apply andb_true_iff. split.
           ++ apply nodupb_NoDup, DictFacts.NoDup_keys_del, nodupb_NoDup, Hk.
           ++ now apply forallb_del.
        -- now apply (forallb_del (fun n => in_use n && live n)).
        -- discriminate.
        -- lia.
        -- lia.
        -- intros [|c w]; [reflexivity|].
           rewrite !score_at_cons, String_eqb_cons. cbn [next].
           destruct (Ascii.eqb_spec c ch) as [->|Hne].
           ++ rewrite DictFacts.get_del_eq, E. cbn [andb].
              destruct (String.eqb w text) eqn:Ew; auto.
              now rewrite <- Hsn with (w := w), Hsc, Ew.
           ++ rewrite DictFacts.get_del_ne by congruence. reflexivity.
    + inversion Hp; subst. apply Hrelink. now apply Hrun.
Qed.

(** ** The invariant along sequences of calls *)

Lemma invariant_init : invariant Trie_init.
Proof. repeat split. Qed.

Lemma invariant_insert self word freq :
  invariant self -> invariant (insert self word freq).
Proof.
  intros (Hwf & Hl & Hw & Hn). rewrite insert_eq. cbv zeta.
  repeat split; cbn [root _count_words _count_nodes].
  - now apply wf_insert.
  - now apply live_insert.
  - lia.
  - lia.
Qed.

Lemma score_of_insert self word freq w :
  score_of (insert self word freq) w =
  if String.eqb w word then Some freq else score_of self w.
Proof. rewrite insert_eq. unfold score_of. cbn. apply score_at_insert. Qed.

Lemma remove_absent self word :
  contains self word = false -> remove self word = (false, self).
Proof.
  rewrite contains_eq, remove_eq.
  destruct (trace_node (root self) word) as [m|]; auto.
  now intros ->.
Qed.

Lemma remove_present self word :
  invariant self -> contains self word = true ->
  exists t,
    remove self word = (true, t) /\ invariant t /\
    forall w, score_of t w = if String.eqb w word then None else score_of self w.
Proof.
  intros (Hwf & Hl & Hw & Hn). rewrite contains_eq, remove_eq.
  destruct (trace_node (root self) word) as [m|] eqn:Htr; [|discriminate].
  intros Hend. rewrite Hend.
  destruct (prune_rec (root self) word (Node_ (next m) false 0%Q)
              (_count_nodes self)) as [[r running] cn] eqn:Hp.
  destruct (prune_rec_sound _ _ _ Htr Hend Hwf Hl Hp)
    as (Hwr & Hlr & _ & Hcn & Hterm & Hsc).
  eexists. split; [reflexivity|]. split.
  - repeat split; cbn [root _count_words _count_nodes]; auto; lia.
  - exact Hsc.
Qed.

Lemma invariant_remove self word :
  invariant self -> invariant (snd (remove self word)).
Proof.
  intros Hinv. destruct (contains self word) eqn:E.
  - destruct (remove_present _ Hinv E) as (t & -> & Ht & _). exact Ht.
  - now rewrite remove_absent.
Qed.

Lemma invariant_step self c : invariant self -> invariant (step self c).
Proof.
  destruct c; simpl; auto using invariant_insert, invariant_remove.
Qed.

Lemma invariant_run calls : invariant (run calls).
Proof.
  unfold run. generalize invariant_init. generalize Trie_init.
  induction calls as [|c calls IH]; intros t Ht; simpl; auto.
  apply IH. now apply invariant_step.
Qed.

(** ** Inserting and removing many words *)

Lemma invariant_insert_all pairs : forall self,
  invariant self -> invariant (insert_all self pairs).
Proof.
  unfold insert_all.
  induction pairs as [|p pairs IH]; intros self H; simpl; auto.
  apply IH. now apply invariant_insert.
Qed.

Lemma contains_insert_all pairs : forall self w,
  contains (insert_all self pairs) w = true <->
  contains self w = true \/ In w (map fst pairs).
Proof.
  unfold insert_all.
  induction pairs as [|[w0 s0] pairs IH]; intros self w; simpl.
  - tauto.
  - rewrite IH. rewrite !contains_score_of.
    setoid_rewrite score_of_insert.
    destruct (String.eqb_spec w w0) as [->|Hne].
    + split; [auto | intros _; left; eauto].
    + split; intros [H|H]; auto. destruct H as [H|H]; auto. congruence.
Qed.

Lemma remove_all_sound words : forall self,
  invariant self -> NoDup words ->
  (forall w, In w words -> contains self w = true) ->
  Forall (fun b => b = true) (fst (remove_all self words)) /\
  invariant (snd (remove_all self words)) /\
  forall w, contains (snd (remove_all self words)) w = true <->
            contains self w = true /\ ~ In w words.
Proof.
  induction words as [|w0 words IH]; intros self Hinv Hnd Hall; simpl.
  - split; [constructor|]. split; [exact Hinv|]. intros w; tauto.
  - inversion Hnd as [|? ? Hnotin Hnd']; subst.
    destruct (remove_present _ Hinv (Hall w0 (or_introl eq_refl)))
      as (t & Hrm & Ht & Hsc).
    rewrite Hrm.
    assert (Hc : forall w, contains t w = true <->
                           contains self w = true /\ w <> w0).
    { intros w. rewrite !contains_score_of. setoid_rewrite Hsc.
      destruct (String.eqb_spec w w0) as [->|Hne].
      - split; [intros [s H]; discriminate | tauto].
      - tauto. }
    destruct (IH t Ht Hnd') as (Hb & Hi & Hw).
    { intros w Hin. apply Hc.
      split; [apply Hall; now right | intros ->; contradiction]. }
    destruct (remove_all t words) as [bs t'] eqn:Hra. simpl in *.
    split; [constructor; auto|]. split; [exact Hi|].
    intros w. rewrite Hw, Hc. split.
    + intros [[H1 H2] H3]. split; auto. intros [Heq|Hin]; auto.
    + intros [H1 H2]. repeat split; auto.
Qed.

(** A node in use above nodes in use leads to a stored word. *)
Lemma in_use_has_word n :
  in_use n = true -> live n = true -> exists w s, score_at n w = Some s.
Proof.
  induction n as [nx e s IH] using Node_induction. intros Hu Hl.
  destruct e.
  - exists "", s. reflexivity.
  - unfold in_use in Hu. cbn [next end_] in Hu. rewrite orb_false_r in Hu.
    destruct nx as [|[c ch] nx]; [discriminate|].
    rewrite live_eq in Hl. cbn [next forallb snd] in Hl.
    apply andb_true_iff in Hl as [Hch _].
    apply andb_true_iff in Hch as [Huc Hlc].
    destruct (IH c ch (or_introl eq_refl) Huc Hlc) as (w & s' & Hw).
    exists (String c w), s'. rewrite score_at_cons. cbn [next Dict.get].
    now rewrite Ascii.eqb_refl.
Qed.

Lemma no_word_is_empty self :
  invariant self -> (forall w, contains self w = false) ->
  _count_nodes self = 1 /\ _count_words self = 0 /\ next (root self) = [].
Proof.
  intros (Hwf & Hl & Hw & Hn) Hnone.
  assert (Hnx : next (root self) = []).
  { destruct (next (root self)) as [|[c ch] nx] eqn:E; auto.
    rewrite live_eq, E in Hl. cbn [forallb snd] in Hl.
    apply andb_true_iff in Hl as [Hch _].
    apply andb_true_iff in Hch as [Huc Hlc].
    destruct (in_use_has_word _ Huc Hlc) as (w & s' & Hsw).
    specialize (Hnone (String c w)).
    apply contains_false_score_of in Hnone.
    unfold score_of in Hnone. rewrite score_at_cons, E in Hnone.
    cbn [Dict.get] in Hnone. rewrite Ascii.eqb_refl in Hnone. congruence. }
  specialize (Hnone ""). rewrite contains_eq in Hnone. simpl in Hnone.
  rewrite size_eq in Hn. rewrite terminals_eq in Hw.
  rewrite Hnx in Hn, Hw. rewrite Hnone in Hw.
  repeat split; auto.
Qed.

(** ** Shapes and heights *)

Lemma shape_eq n :
  shape n = Shape (map (fun p => (fst p, shape (snd p))) (next n)) (end_ n).
Proof. destruct n; reflexivity. Qed.

Lemma depth_eq n :
  depth n =
  match next n with
  | [] => 0%nat
  | _ => S (list_max (map (fun p => depth (snd p)) (next n)))
  end.
Proof. destruct n as [[|p nx] e s]; reflexivity. Qed.

Lemma map_set_same (B : Type) (g : _Node -> B) d k v v0 :
  Dict.get d k = Some v0 -> g v = g v0 ->
  map (fun p => (fst p, g (snd p))) (Dict.set d k v) =
  map (fun p => (fst p, g (snd p))) d.
Proof.
  intros Hget Hg. induction d as [|[k' v'] d IH]; simpl in *; [discriminate|].
  destruct (Ascii.eqb_spec k' k); simpl.
  - inversion Hget; subst. now rewrite Hg.
  - now rewrite IH.
Qed.

(** Inserting a stored word again changes neither the shape nor the
    counts. *)
Lemma reinsert_node word freq : forall node m,
  trace_node node word = Some m -> end_ m = true ->
  shape (insert_node word freq node) = shape node /\
  size (insert_node word freq node) = size node /\
  terminals (insert_node word freq node) = terminals node.
Proof.
  induction word as [|ch word IH]; intros node m Htr Hend.
  - simpl in Htr. inversion Htr; subst m. cbn [insert_node].
    rewrite (shape_eq node), (size_eq node), (terminals_eq node), Hend.
    repeat split.
  - cbn [trace_node insert_node] in *.
    destruct (Dict.get (next node) ch) as [c|] eqn:E; [|discriminate].
    destruct (IH c m Htr Hend) as (Hsh & Hsz & Hte).
    rewrite (shape_eq (Node_ _ _ _)), (size_eq (Node_ _ _ _)),
      (terminals_eq (Node_ _ _ _)).
    rewrite (shape_eq node), (size_eq node), (terminals_eq node).
    cbn [next end_].
    pose proof (DictFacts.total_set_mem size _ _ (insert_node word freq c) E).
    pose proof (DictFacts.total_set_mem terminals _ _
                  (insert_node word freq c) E).
    rewrite (map_set_same shape _ _ _ E Hsh).
    repeat split; lia.
Qed.

Lemma In_list_max l : l <> [] -> In (list_max l) l.
Proof.
  induction l as [|a l IH]; [congruence|]. intros _.
  destruct l as [|b l].
  - simpl. left. lia.
  - assert (Hb : In (list_max (b :: l)) (b :: l)) by (apply IH; congruence).
    change (list_max (a :: b :: l)) with (Nat.max a (list_max (b :: l))).
    destruct (Nat.max_spec a (list_max (b :: l))) as [[_ ->]|[_ ->]].
    + now right.
    + now left.
Qed.

Lemma list_max_unique l m :
  In m l -> Forall (fun h => (h <= m)%nat) l -> list_max l = m.
Proof.
  intros Hin Hall. apply Nat.le_antisymm.
  - now apply list_max_le.
  - assert (H : Forall (fun h => (h <= list_max l)%nat) l)
      by now apply list_max_le.
    rewrite Forall_forall in H. now apply H.
Qed.

Lemma children_heights (nx : list (ascii * _Node)) hs :
  (forall c ch, In (c, ch) nx -> forall h, height_is ch h -> h = depth ch) ->
  Forall2 (fun p h => height_is (snd p) h) nx hs ->
  hs = map (fun p => depth (snd p)) nx.
Proof.
  intros IH Hall.
  induction Hall as [|[c ch] h l hs Hx Hall IHall]; simpl; auto.
  f_equal.
  - apply (IH c); [now left | exact Hx].
  - apply IHall. intros c' ch' Hin'. apply (IH c'). now right.
Qed.

Lemma depth_inner n :
  next n <> [] -> depth n = S (list_max (map (fun p => depth (snd p)) (next n))).
Proof. rewrite depth_eq. destruct (next n); congruence. Qed.

Lemma height_is_depth n : height_is n (depth n).
Proof.
  induction n as [nx e s IH] using Node_induction.
  assert (Hc : nx = [] \/ nx <> []) by (destruct nx; [left|right]; congruence).
  destruct Hc as [-> | Hne]; [now apply height_leaf|].
  rewrite depth_inner by exact Hne. cbn [next].
  apply height_inner with (hs := map (fun p => depth (snd p)) nx);
    cbn [next]; auto.
  - clear Hne. induction nx as [|[c ch] nx IHnx]; simpl; constructor.
    + apply (IH c). now left.
    + apply IHnx. intros c' ch' Hin. apply (IH c'). now right.
  - apply In_list_max. destruct nx; [congruence | discriminate].
  - now apply list_max_le.
Qed.

Lemma height_is_unique n : forall h, height_is n h -> h = depth n.
Proof.
  induction n as [nx e s IH] using Node_induction.
  intros h Hh.
  inversion Hh as [n Hnx | n hs m Hnx Hall Hin Hmax]; subst; cbn [next] in *.
  - subst. reflexivity.
  - rewrite depth_inner by exact Hnx. cbn [next].
    f_equal. symmetry.
    rewrite <- (children_heights IH Hall).
    now apply list_max_unique.
Qed.

(** Below a node whose descendants are all in use, every node reached by a
    non-empty text is in use. *)
Lemma live_trace text : forall n m,
  live n = true -> trace_node n text = Some m -> text <> "" ->
  in_use m = true.
Proof.
  induction text as [|ch text IH]; intros n m Hl Htr Hne; [congruence|].
  cbn [trace_node] in Htr.
  destruct (Dict.get (next n) ch) as [nxt|] eqn:E; [|discriminate].
  apply DictFacts.get_In in E.
  destruct (live_child _ _ _ Hl E) as [Hu Hln].
  destruct text as [|c text].
  - simpl in Htr. now inversion Htr; subst.
  - apply (IH nxt m Hln Htr). discriminate.
Qed.

(** * The specification's statements about [insert], [remove] and [stats] *)

(** C4. Round trip: from the empty trie, inserting pairs whose words are
    pairwise distinct and then removing every one of these words, in any
    order, makes every [remove] return [True] and leaves [node_count = 1]
    and [word_count = 0]; [stats()] is again [(0, 0, 1)]. *)
Theorem insert_then_remove_all (pairs : list (string * Q)) (order : list string) :
  NoDup (map fst pairs) ->
  Permutation order (map fst pairs) ->
  let t := insert_all Trie_init pairs in
  Forall (fun b => b = true) (fst (remove_all t order)) /\
  _count_nodes (snd (remove_all t order)) = 1 /\
  _count_words (snd (remove_all t order)) = 0 /\
  stats (snd (remove_all t order)) = (0, 0%nat, 1).
Proof.
  intros Hnd Hperm t.
  assert (Hinv : invariant t) by apply invariant_insert_all, invariant_init.
  assert (Hin : forall w, contains t w = true <-> In w order).
  { intros w. unfold t. rewrite contains_insert_all.
    split.
    - intros [H|H]; [destruct w; discriminate|].
      eapply Permutation_in; [apply Permutation_sym|]; eauto.
    - intros H. right. eapply Permutation_in; eauto. }
  assert (Hnd' : NoDup order).
  { eapply Permutation_NoDup; [apply Permutation_sym|]; eauto. }
  destruct (remove_all_sound Hinv Hnd') as (Hb & Hi & Hw).
  { intros w. apply Hin. }
  split; auto.
  destruct (no_word_is_empty Hi) as (Hn & Hc & Hnx).
  { intros w. destruct (contains (snd (remove_all t order)) w) eqn:E; auto.
    apply Hw in E as [E1 E2]. apply Hin in E1. contradiction. }
  repeat split; auto.
  unfold stats. rewrite Hn, Hc, depth_eq, Hnx. reflexivity.
Qed.

Lemma insert_then_remove_all_witness :
  let pairs := [("cat", 3%Q); ("car", 9%Q); ("", 1%Q)] in
  let order := ["car"; ""; "cat"] in
  let t := insert_all Trie_init pairs in
  Forall (fun b => b = true) (fst (remove_all t order)) /\
  _count_nodes (snd (remove_all t order)) = 1 /\
  _count_words (snd (remove_all t order)) = 0 /\
  stats (snd (remove_all t order)) = (0, 0%nat, 1).
Proof.
  apply (@insert_then_remove_all
           [("cat", 3%Q); ("car", 9%Q); ("", 1%Q)] ["car"; ""; "cat"]).
  - simpl. repeat constructor; simpl; intuition discriminate.
  - simpl. apply perm_trans with ["car"; "cat"; ""].
    + apply perm_skip, perm_swap.
    + apply perm_swap.
Defined.

(** C5. [remove] of a word that is not stored, because a character of its
    path is missing or because its last node is not terminal, returns
    [False] and leaves the whole trie, counters and tree, as it was. *)
Theorem remove_absent_unchanged (self : Trie) (word : string) :
  (fst (_trace self word) = None \/
   exists node, fst (_trace self word) = Some node /\ end_ node = false) ->
  remove self word = (false, self).
Proof.
  intros H. apply remove_absent. rewrite contains_eq.
  rewrite fst_trace in H.
  destruct H as [-> | (node & -> & Hend)]; auto.
Qed.

Lemma remove_absent_unchanged_witness :
  let self := insert Trie_init "car" 1%Q in
  (exists node, fst (_trace self "ca") = Some node /\ end_ node = false) /\
  remove self "ca" = (false, self).
Proof.
  assert (H : exists node,
             fst (_trace (insert Trie_init "car" 1%Q) "ca") = Some node /\
             end_ node = false).
  { eexists. split; reflexivity. }
  split; [exact H|].
  apply (@remove_absent_unchanged (insert Trie_init "car" 1%Q) "ca").
  right. exact H.
Defined.

(** C6. Inserting a word that is already stored sets its score to the new
    value and changes neither [word_count], nor [node_count], nor the shape
    of the tree (children and terminal flags); the word is still contained,
    and every other word keeps its score. *)
Theorem reinsert_updates_score (self : Trie) (w : string) (s : Q) :
  contains self w = true ->
  let t := insert self w s in
  score_of t w = Some s /\
  _count_words t = _count_words self /\
  _count_nodes t = _count_nodes self /\
  shape (root t) = shape (root self) /\
  contains t w = true /\
  (forall w', w' <> w -> score_of t w' = score_of self w').
Proof.
  intros Hc t.
  assert (Hs : forall w', score_of t w' =
                          if String.eqb w' w then Some s else score_of self w').
  { intros w'. apply score_of_insert. }
  assert (Hcw : contains t w = true).
  { apply contains_score_of. exists s. rewrite Hs. now rewrite String.eqb_refl. }
  rewrite contains_eq in Hc.
  destruct (trace_node (root self) w) as [m|] eqn:Htr; [|discriminate].
  destruct (reinsert_node w s (root self) Htr Hc) as (Hsh & Hsz & Hte).
  split; [rewrite Hs; now rewrite String.eqb_refl|].
  split; [unfold t; rewrite insert_eq; cbn [_count_words]; lia|].
  split; [unfold t; rewrite insert_eq; cbn [_count_nodes]; lia|].
  split; [unfold t; rewrite insert_eq; exact Hsh|].
  split; [exact Hcw|].
  intros w' Hne. rewrite Hs.
  destruct (String.eqb_spec w' w); congruence.
Qed.

Lemma reinsert_updates_score_witness :
  let self := insert (insert Trie_init "cat" 3%Q) "car" 9%Q in
  contains self "cat" = true /\
  score_of (insert self "cat" 7%Q) "cat" = Some 7%Q /\
  _count_words (insert self "cat" 7%Q) = _count_words self /\
  _count_nodes (insert self "cat" 7%Q) = _count_nodes self.
Proof.
  assert (Hc : contains (insert (insert Trie_init "cat" 3%Q) "car" 9%Q) "cat"
               = true) by reflexivity.
  pose proof (@reinsert_updates_score _ "cat" 7%Q Hc) as H.
  cbv zeta in *. split; [exact Hc|]. tauto.
Defined.

(** C7. [stats()] of the empty trie is [(0, 0, 1)]; the height it reports is
    the height of the specification (0 for a node without children, else
    one more than the greatest height of a child), which is unique; and
    after inserting "a" and "ab" into the empty trie, with any scores,
    [stats()] is [(2, 2, 3)]. *)
Theorem stats_height :
  stats Trie_init = (0, 0%nat, 1) /\
  (forall self : Trie,
      height_is (root self) (snd (fst (stats self))) /\
      forall h, height_is (root self) h -> h = snd (fst (stats self))) /\
  (forall s1 s2 : Q,
      stats (insert (insert Trie_init "a" s1) "ab" s2) = (2, 2%nat, 3)).
Proof.
  split; [reflexivity|]. split.
  - intros self. unfold stats. cbn [fst snd]. split.
    + apply height_is_depth.
    + apply height_is_unique.
  - intros s1 s2. reflexivity.
Qed.

Lemma stats_height_witness :
  let self := insert (insert Trie_init "a" 1%Q) "ab" 2%Q in
  height_is (root self) 2 /\ 2%nat = snd (fst (stats self)).
Proof.
  set (self := insert (insert Trie_init "a" 1%Q) "ab" 2%Q).
  destruct (proj1 (proj2 stats_height) self) as [H1 H2].
  split; [exact H1 | apply H2; exact H1].
Defined.

(** C8. In every state reached from the empty trie by a sequence of
    [insert], [remove], [contains], [complete], [stats] and [items] calls,
    [word_count] is the number of terminal nodes of the tree and
    [node_count] the number of its nodes, the root included; keys being
    unique, every node of the tree is reachable from the root. *)
Theorem counters_agree (calls : list call) :
  let t := run calls in
  _count_words t = Z.of_nat (terminals (root t)) /\
  _count_nodes t = Z.of_nat (size (root t)) /\
  wf (root t) = true.
Proof.
  destruct (invariant_run calls) as (Hwf & _ & Hw & Hn). auto.
Qed.

(** C9. In every state reached from the empty trie, every node other than
    the root has a child or is terminal.  After inserting "cats" and "car"
    and removing "cats", the nodes of 't' and 's' are gone, those of 'c'
    and 'a' remain, "car" is contained and "cats" is not. *)
Theorem no_dead_branch :
  (forall (calls : list call) (text : string) (node : _Node),
      text <> "" ->
      fst (_trace (run calls) text) = Some node ->
      next node <> [] \/ end_ node = true) /\
  (forall s1 s2 : Q,
      let t := snd (remove (insert (insert Trie_init "cats" s1) "car" s2) "cats") in
      fst (remove (insert (insert Trie_init "cats" s1) "car" s2) "cats") = true /\
      fst (_trace t "cat") = None /\
      fst (_trace t "cats") = None /\
      fst (_trace t "c") <> None /\
      fst (_trace t "ca") <> None /\
      contains t "car" = true /\
      contains t "cats" = false /\
      _count_nodes t = 4).
Proof.
  split.
  - intros calls text node Hne Htr. rewrite fst_trace in Htr.
    destruct (invariant_run calls) as (_ & Hl & _).
    pose proof (@live_trace text _ _ Hl Htr Hne) as Hu.
    unfold in_use in Hu. apply orb_true_iff in Hu as [Hu|Hu]; auto.
    left. destruct (next node); [discriminate | congruence].
  - intros s1 s2. cbv zeta.
    repeat split; try reflexivity; discriminate.
Qed.

Lemma no_dead_branch_witness :
  let calls := [Insert "cats" 1%Q; Insert "car" 2%Q; Contains "ca";
                Remove "cats"; Stats] in
  exists node,
    fst (_trace (run calls) "ca") = Some node /\
    (next node <> [] \/ end_ node = true).
Proof.
  eexists. split; [reflexivity|].
  apply (proj1 no_dead_branch
           [Insert "cats" 1%Q; Insert "car" 2%Q; Contains "ca";
            Remove "cats"; Stats] "ca").
  - discriminate.
  - reflexivity.
Defined.

(** * The specification's statements about [complete] *)

(** C1. After [insert("ant", 5.0)], [insert("ape", 5.0)] and
    [insert("art", 5.0)] into the empty trie, [complete("a", 2)] is expected
    to return [["ant", "ape"]].  The heap compares [(score, word)] pairs, so
    among equal scores [heappushpop] evicts the alphabetically smallest
    word: the call returns [["ape", "art"]]. *)
Theorem complete_equal_scores :
  let t := insert (insert (insert Trie_init "ant" 5%Q) "ape" 5%Q) "art" 5%Q in
  complete t "a" 2 = ["ape"; "art"] /\
  complete t "a" 2 <> ["ant"; "ape"] /\
  complete t "a" 3 = ["ant"; "ape"; "art"].
Proof.
  cbv zeta. repeat split; try reflexivity. discriminate.
Qed.

(** ** Strings *)

Lemma append_nil_r (s : string) : (s ++ "")%string = s.
Proof. induction s as [|c s IH]; simpl; congruence. Qed.

Lemma append_assoc (a b c : string) :
  ((a ++ b) ++ c)%string = (a ++ (b ++ c))%string.
Proof. induction a as [|x a IH]; simpl; congruence. Qed.

Lemma append_inv_head (a b c : string) :
  (a ++ b)%string = (a ++ c)%string -> b = c.
Proof. induction a as [|x a IH]; simpl; intros H; auto. inversion H; auto. Qed.

Lemma append_snoc (a : string) (c : ascii) (b : string) :
  ((a ++ String c "") ++ b)%string = (a ++ String c b)%string.
Proof. now rewrite append_assoc. Qed.

Lemma append_length (a b : string) :
  String.length (a ++ b) = (String.length a + String.length b)%nat.
Proof. induction a as [|x a IH]; simpl; congruence. Qed.

Lemma append_neq_self (a : string) (c : ascii) (b : string) :
  (a ++ String c b)%string <> a.
Proof.
  intros H. apply (f_equal String.length) in H.
  rewrite append_length in H. simpl in H. lia.
Qed.

Lemma prefix_append (p w : string) :
  String.prefix p w = true <-> exists suffix, w = (p ++ suffix)%string.
Proof.
  revert w. induction p as [|c p IH]; intros w.
  - split; [exists w; reflexivity|]. now destruct w.
  - destruct w as [|c' w]; simpl.
    + split; [discriminate | intros [s H]; discriminate].
    + destruct (ascii_dec c c') as [->|Hne].
      * rewrite IH. split; intros [s H]; exists s; congruence.
      * split; [discriminate | intros [s H]; congruence].
Qed.

Lemma trace_node_app (a b : string) : forall n,
  trace_node n (a ++ b) =
  match trace_node n a with
  | Some m => trace_node m b
  | None => None
  end.
Proof.
  induction a as [|c a IH]; intros n; simpl; auto.
  destruct (Dict.get (next n) c); auto.
Qed.

(** ** The visit of [dfs] *)

Lemma get_map (B : Type) (g : _Node -> B) d c :
  Dict.get (map (fun p => (fst p, g (snd p))) d) c =
  option_map g (Dict.get d c).
Proof.
  induction d as [|[k v] d IH]; simpl; auto.
  now destruct (Ascii.eqb k c).
Qed.

Lemma collect_eq n word :
  collect n word =
  (if end_ n then [(score n, word)] else []) ++
  flat_map
    (fun c =>
       match Dict.get (next n) c with
       | Some ch => collect ch (word ++ String c "")%string
       | None => []
       end)
    (sorted Ascii.ltb (Dict.keys (next n))).
Proof.
  destruct n as [nx e s]. cbn [collect next end_ score]. f_equal.
  apply flat_map_ext. intros c. rewrite get_map.
  now destruct (Dict.get nx c).
Qed.

Lemma dfs_eq k n word heap :
  dfs k n word heap =
  fold_left
    (fun h c =>
       match Dict.get (next n) c with
       | Some ch => dfs k ch (word ++ String c "")%string h
       | None => h
       end)
    (sorted Ascii.ltb (Dict.keys (next n)))
    (if end_ n then offer k heap (score n, word) else heap).
Proof.
  destruct n as [nx e s]. cbn [dfs next end_ score]. unfold offer.
  generalize (if e
              then if (Z.of_nat (Datatypes.length heap) <? k)%Z
                   then heapq.heappush heap (s, word)
                   else heapq.heappushpop heap (s, word)
              else heap).
  induction (sorted Ascii.ltb (Dict.keys nx)) as [|c ks IH]; intros h; simpl; auto.
  rewrite IH. f_equal. rewrite get_map. now destruct (Dict.get nx c).
Qed.

(** [dfs] offers to the heap, one after the other, the pairs of [collect]. *)
Lemma dfs_collect k n : forall word heap,
  dfs k n word heap = fold_left (offer k) (collect n word) heap.
Proof.
  induction n as [nx e s IH] using Node_induction. intros word heap.
  rewrite dfs_eq, collect_eq, fold_left_app. cbn [next end_ score].
  assert (H0 : fold_left (offer k) (if e then [(s, word)] else []) heap =
               (if e then offer k heap (s, word) else heap))
    by now destruct e.
  rewrite H0. generalize (if e then offer k heap (s, word) else heap).
  induction (sorted Ascii.ltb (Dict.keys nx)) as [|c ks IHks]; intros h;
    simpl; auto.
  rewrite fold_left_app, <- IHks. f_equal.
  destruct (Dict.get nx c) as [ch|] eqn:E; auto.
  apply (IH c). now apply DictFacts.get_In.
Qed.

Lemma complete_eq self prefix k :
  complete self prefix k =
  match trace_node (root self) prefix with
  | Some node =>
      map snd (sorted key_ltb (fold_left (offer k) (collect node prefix) []))
  | None => []
  end.
Proof.
  unfold complete. rewrite _trace_eq.
  destruct (trace_node (root self) prefix); auto.
  now rewrite dfs_collect.
Qed.

(** ** [sorted] *)

Section SortedFacts.
Variable A : Type.
Variable ltb : A -> A -> bool.

Lemma sorted_insert_perm x l : Permutation (sorted_insert ltb x l) (x :: l).
Proof.
  induction l as [|y l IH]; simpl; auto.
  destruct (ltb y x); auto.
  apply perm_trans with (y :: x :: l); auto using perm_swap.
Qed.

Lemma sorted_perm l : Permutation (sorted ltb l) l.
Proof.
  induction l as [|x l IH]; simpl; auto.
  apply perm_trans with (x :: sorted ltb l); auto using sorted_insert_perm.
Qed.

Lemma sorted_insert_length x l :
  List.length (sorted_insert ltb x l) = S (List.length l).
Proof. apply (Permutation_length (sorted_insert_perm x l)). Qed.

Lemma sorted_In x l : In x (sorted ltb l) <-> In x l.
Proof.
  split; apply Permutation_in;
    [apply sorted_perm | apply Permutation_sym, sorted_perm].
Qed.

(** The result is ordered when [ltb] is the strict part of a total
    preorder: no later item is smaller than an earlier one. *)
Hypothesis ltb_asym : forall a b, ltb a b = true -> ltb b a = false.
Hypothesis geb_trans :
  forall a b c, ltb b a = false -> ltb c b = false -> ltb c a = false.

Lemma sorted_insert_ordered x l :
  StronglySorted (fun a b => ltb b a = false) l ->
  StronglySorted (fun a b => ltb b a = false) (sorted_insert ltb x l).
Proof.
  induction 1 as [|y l Hs IH Hy]; simpl.
  - repeat constructor.
  - destruct (ltb y x) eqn:E.
    + constructor; auto.
      apply Forall_forall. intros z Hz.
      apply (Permutation_in _ (sorted_insert_perm x l)) in Hz.
      destruct Hz as [<-|Hz]; auto.
      rewrite Forall_forall in Hy. auto.
    + constructor; [constructor; auto|].
      constructor; auto.
      apply Forall_forall. intros z Hz.
      rewrite Forall_forall in Hy. eauto.
Qed.

Lemma sorted_ordered l : StronglySorted (fun a b => ltb b a = false) (sorted ltb l).
Proof.
  induction l as [|x l IH]; simpl; [constructor|].
  now apply sorted_insert_ordered.
Qed.

End SortedFacts.

(** ** The pairs of the visit are the stored words below the node *)

Lemma In_collect n : forall word s w,
  In (s, w) (collect n word) <->
  exists suffix m,
    w = (word ++ suffix)%string /\ trace_node n suffix = Some m /\
    end_ m = true /\ score m = s.
Proof.
  induction n as [nx e sc IH] using Node_induction. intros word s w.
  rewrite collect_eq, in_app_iff, in_flat_map. cbn [next end_ score].
  split.
  - intros [H | (c & Hc & H)].
    + destruct e; [|contradiction]. destruct H as [H|[]].
      inversion H; subst. exists "", (Node_ nx true s).
      now rewrite append_nil_r.
    + destruct (Dict.get nx c) as [ch|] eqn:E; [|contradiction].
      apply (IH c ch (DictFacts.get_In _ _ E)) in H
        as (suffix & m & -> & Htr & Hend & Hs).
      exists (String c suffix), m. rewrite append_snoc.
      cbn [trace_node next]. now rewrite E.
  - intros (suffix & m & -> & Htr & Hend & Hs).
    destruct suffix as [|c suffix].
    + simpl in Htr. inversion Htr; subst. cbn [end_ score] in *. subst.
      left. rewrite append_nil_r. now left.
    + cbn [trace_node next] in Htr.
      destruct (Dict.get nx c) as [ch|] eqn:E; [|discriminate].
      right. exists c. split.
      * apply sorted_In. eapply DictFacts.get_Some_keys; eauto.
      * rewrite E. apply (IH c ch (DictFacts.get_In _ _ E)).
        exists suffix, m. now rewrite append_snoc.
Qed.

Lemma In_collect_score_of self prefix node s w :
  trace_node (root self) prefix = Some node ->
  In (s, w) (collect node prefix) <->
  score_of self w = Some s /\ String.prefix prefix w = true.
Proof.
  intros Htr. rewrite In_collect, prefix_append. unfold score_of, score_at.
  split.
  - intros (suffix & m & -> & Hm & Hend & Hs).
    rewrite trace_node_app, Htr, Hm, Hend, Hs. eauto.
  - intros [Hsc [suffix ->]]. rewrite trace_node_app, Htr in Hsc.
    destruct (trace_node node suffix) as [m|] eqn:Hm; [|discriminate].
    destruct (end_ m) eqn:Hend; [|discriminate].
    exists suffix, m. inversion Hsc. auto.
Qed.

Lemma NoDup_map_app (B C : Type) (g : B -> C) l1 l2 :
  NoDup (map g l1) -> NoDup (map g l2) ->
  (forall a b, In a l1 -> In b l2 -> g a <> g b) ->
  NoDup (map g (l1 ++ l2)).
Proof.
  intros H1 H2 Hd. induction l1 as [|a l1 IH]; simpl in *; auto.
  inversion H1; subst. constructor.
  - rewrite map_app, in_app_iff. intros [H|H]; auto.
    apply in_map_iff in H as (b & Hb & Hin). apply (Hd a b); auto.
  - apply IH; auto.
Qed.

Lemma NoDup_map_flat_map (B C D : Type) (g : C -> D) (f : B -> list C) l :
  NoDup l ->
  (forall x, In x l -> NoDup (map g (f x))) ->
  (forall x y a b, In x l -> In y l -> x <> y ->
                   In a (f x) -> In b (f y) -> g a <> g b) ->
  NoDup (map g (flat_map f l)).
Proof.
  intros Hl Hf Hd. induction l as [|x l IH]; simpl; [constructor|].
  inversion Hl; subst. apply NoDup_map_app.
  - apply Hf. now left.
  - apply IH; auto.
    + intros y Hy. apply Hf. now right.
    + intros y z a b Hy Hz. apply Hd; now right.
  - intros a b Ha Hb. apply in_flat_map in Hb as (y & Hy & Hb).
    apply (Hd x y a b); auto; [now left | now right | congruence].
Qed.

(** With unique keys, the visit meets every word once. *)
Lemma NoDup_collect n : forall word,
  wf n = true -> NoDup (map snd (collect n word)).
Proof.
  induction n as [nx e sc IH] using Node_induction. intros word Hwf.
  rewrite collect_eq. cbn [next end_ score].
  pose proof (wf_keys _ Hwf) as Hk. cbn [next] in Hk.
  apply NoDup_map_app.
  - destruct e; simpl; repeat constructor; auto.
  - apply NoDup_map_flat_map.
    + apply Permutation_NoDup with (Dict.keys nx).
      * apply Permutation_sym, sorted_perm.
      * now apply nodupb_NoDup.
    + intros c Hc. destruct (Dict.get nx c) as [ch|] eqn:E; [|constructor].
      apply DictFacts.get_In in E. apply (IH c ch E).
      exact (wf_child _ _ _ Hwf E).
    + intros c c' [s w] [s' w'] _ _ Hne Ha Hb.
      destruct (Dict.get nx c) as [ch|]; [|contradiction].
      destruct (Dict.get nx c') as [ch'|]; [|contradiction].
      apply In_collect in Ha as (sa & ma & -> & _).
      apply In_collect in Hb as (sb & mb & -> & _).
      cbn [snd]. rewrite !append_snoc. intros H.
      apply append_inv_head in H. congruence.
  - intros [s w] [s' w'] Ha Hb.
    destruct e; [|contradiction]. destruct Ha as [Ha|[]].
    inversion Ha; subst. apply in_flat_map in Hb as (c & _ & Hb).
    destruct (Dict.get nx c) as [ch|]; [|contradiction].
    apply In_collect in Hb as (sb & mb & -> & _).
    cbn [snd]. rewrite append_snoc. intros H. symmetry in H.
    exact (append_neq_self _ _ H).
Qed.

(** ** The bounded heap *)

Lemma offer_length k h x :
  Z.of_nat (List.length h) <= Z.max 0 k ->
  Z.of_nat (List.length (offer k h x)) <= Z.max 0 k.
Proof.
  unfold offer, heapq.heappush, heapq.heappushpop. intros H.
  destruct (Z.ltb_spec (Z.of_nat (List.length h)) k).
  - rewrite sorted_insert_length. lia.
  - destruct h as [|top rest]; auto.
    destruct (tuple_ltb top x); auto.
    rewrite sorted_insert_length. exact H.
Qed.

Lemma fold_offer_length k l : forall h,
  Z.of_nat (List.length h) <= Z.max 0 k ->
  Z.of_nat (List.length (fold_left (offer k) l h)) <= Z.max 0 k.
Proof.
  induction l as [|x l IH]; intros h H; simpl; auto.
  apply IH. now apply offer_length.
Qed.

Lemma offer_In k h x y : In y (offer k h x) -> y = x \/ In y h.
Proof.
  unfold offer, heapq.heappush, heapq.heappushpop.
  destruct (Z.ltb (Z.of_nat (List.length h)) k).
  - intros H. apply (Permutation_in _ (sorted_insert_perm _ _ _)) in H.
    destruct H; auto.
  - destruct h as [|top rest]; auto.
    destruct (tuple_ltb top x); auto.
    intros H. apply (Permutation_in _ (sorted_insert_perm _ _ _)) in H.
    destruct H; auto. right. now right.
Qed.

Lemma fold_offer_In k l : forall h y,
  In y (fold_left (offer k) l h) -> In y h \/ In y l.
Proof.
  induction l as [|x l IH]; intros h y H; simpl in *; auto.
  apply IH in H as [H|H]; auto.
  apply offer_In in H as [H|H]; auto.
Qed.

Lemma fold_offer_room k l : forall h,
  Z.of_nat (List.length h + List.length l) <= k ->
  Permutation (fold_left (offer k) l h) (h ++ l).
Proof.
  induction l as [|x l IH]; intros h H; simpl in *.
  - now rewrite app_nil_r.
  - assert (Hx : offer k h x = sorted_insert tuple_ltb x h).
    { unfold offer, heapq.heappush.
      destruct (Z.ltb_spec (Z.of_nat (List.length h)) k); auto. lia. }
    apply perm_trans with (offer k h x ++ l).
    + apply IH. rewrite Hx, sorted_insert_length. lia.
    + rewrite Hx. apply perm_trans with ((x :: h) ++ l).
      * apply Permutation_app_tail, sorted_insert_perm.
      * simpl. apply Permutation_middle.
Qed.

Lemma fold_offer_none k l : k <= 0 -> fold_left (offer k) l [] = [].
Proof.
  intros Hk. induction l as [|x l IH]; simpl; auto.
  unfold offer at 2. simpl.
  destruct (Z.ltb_spec 0 k); [lia|]. exact IH.
Qed.

(** ** The order of pairs *)

Lemma ascii_compare_refl c : Ascii.compare c c = Eq.
Proof. apply N.compare_refl. Qed.

Lemma string_compare_refl s : String.compare s s = Eq.
Proof.
  induction s as [|c s IH]; simpl; auto. now rewrite ascii_compare_refl.
Qed.

Lemma string_lt_trans a : forall b c,
  String.compare a b = Lt -> String.compare b c = Lt -> String.compare a c = Lt.
Proof.
  induction a as [|x a IH]; intros [|y b] [|z c]; simpl; try congruence.
  destruct (Ascii.compare x y) eqn:Exy; try discriminate;
    destruct (Ascii.compare y z) eqn:Eyz; try discriminate.
  - apply Ascii.compare_eq_iff in Exy, Eyz. subst.
    rewrite ascii_compare_refl. apply IH.
  - apply Ascii.compare_eq_iff in Exy. subst. now rewrite Eyz.
  - apply Ascii.compare_eq_iff in Eyz. subst. now rewrite Exy.
  - unfold Ascii.compare in *. rewrite N.compare_lt_iff in *.
    assert (H : (N_of_ascii x < N_of_ascii z)%N) by (eapply N.lt_trans; eauto).
    apply N.compare_lt_iff in H. now rewrite H.
Qed.

Lemma string_leb_iff a b :
  String.leb a b = true <-> String.compare a b = Lt \/ a = b.
Proof.
  unfold String.leb. destruct (String.compare a b) eqn:E.
  - apply String.compare_eq_iff in E. tauto.
  - tauto.
  - split; [discriminate|]. intros [H| ->]; [discriminate|].
    rewrite string_compare_refl in E. discriminate.
Qed.

Lemma string_leb_trans a b c :
  String.leb a b = true -> String.leb b c = true -> String.leb a c = true.
Proof.
  rewrite !string_leb_iff. intros [H1| ->] [H2| ->]; auto.
  left. eapply string_lt_trans; eauto.
Qed.

Lemma string_ltb_leb a b : String.ltb b a = false <-> String.leb a b = true.
Proof.
  unfold String.ltb, String.leb. rewrite (String.compare_antisym a b).
  destruct (String.compare b a); simpl; split; auto; discriminate.
Qed.

Lemma string_ltb_lt a b : String.ltb a b = true <-> String.compare a b = Lt.
Proof.
  unfold String.ltb. destruct (String.compare a b); split; auto; discriminate.
Qed.

Lemma tuple_ltb_false a b : tuple_ltb b a = false <-> tuple_le a b.
Proof.
  unfold tuple_ltb, tuple_le.
  destruct (Qcompare_spec (fst b) (fst a)) as [H|H|H].
  - rewrite string_ltb_leb. split.
    + intros Hs. right. split; auto. now symmetry.
    + intros [Hl|[_ Hs]]; auto. rewrite H in Hl.
      now apply Qlt_irrefl in Hl.
  - split; [discriminate|]. intros [Hl|[He _]].
    + exfalso. apply (Qlt_irrefl (fst a)). eapply Qlt_trans; eauto.
    + rewrite He in H. now apply Qlt_irrefl in H.
  - tauto.
Qed.

Lemma tuple_ltb_true a b :
  tuple_ltb a b = true <->
  Qlt (fst a) (fst b) \/
  (Qeq (fst a) (fst b) /\ String.compare (snd a) (snd b) = Lt).
Proof.
  unfold tuple_ltb.
  destruct (Qcompare_spec (fst a) (fst b)) as [H|H|H].
  - rewrite string_ltb_lt. split; auto.
    intros [Hl|[_ Hs]]; auto. rewrite H in Hl. now apply Qlt_irrefl in Hl.
  - tauto.
  - split; [discriminate|]. intros [Hl|[He _]].
    + exfalso. apply (Qlt_irrefl (fst a)). eapply Qlt_trans; eauto.
    + rewrite He in H. now apply Qlt_irrefl in H.
Qed.

Lemma tuple_le_trans a b c : tuple_le a b -> tuple_le b c -> tuple_le a c.
Proof.
  unfold tuple_le. intros [H1|[H1 S1]] [H2|[H2 S2]].
  - left. eapply Qlt_trans; eauto.
  - left. now rewrite <- H2.
  - left. now rewrite H1.
  - right. split.
    + now rewrite H1.
    + eapply string_leb_trans; eauto.
Qed.

Lemma tuple_ltb_asym a b : tuple_ltb a b = true -> tuple_ltb b a = false.
Proof.
  rewrite tuple_ltb_true, tuple_ltb_false. unfold tuple_le.
  intros [H|[H S]]; auto. right. split; auto.
  apply string_leb_iff. auto.
Qed.

Lemma tuple_geb_trans a b c :
  tuple_ltb b a = false -> tuple_ltb c b = false -> tuple_ltb c a = false.
Proof. rewrite !tuple_ltb_false. apply tuple_le_trans. Qed.

Lemma key_ltb_asym a b : key_ltb a b = true -> key_ltb b a = false.
Proof. apply tuple_ltb_asym. Qed.

Lemma key_geb_trans a b c :
  key_ltb b a = false -> key_ltb c b = false -> key_ltb c a = false.
Proof. apply tuple_geb_trans. Qed.

Lemma key_ltb_false a b :
  key_ltb b a = false ->
  Qlt (fst b) (fst a) \/
  (Qeq (fst a) (fst b) /\ String.leb (snd a) (snd b) = true).
Proof.
  unfold key_ltb. rewrite tuple_ltb_false. unfold tuple_le, key. cbn [fst snd].
  intros [H|[H S]].
  - left. apply Qopp_lt_compat in H. now rewrite !Qopp_involutive in H.
  - right. split; auto.
    rewrite <- (Qopp_involutive (fst a)), <- (Qopp_involutive (fst b)).
    now rewrite H.
Qed.

Lemma StronglySorted_map (B C : Type) (R : B -> B -> Prop) (R' : C -> C -> Prop)
    (f : B -> C) l :
  (forall a b, In a l -> In b l -> R a b -> R' (f a) (f b)) ->
  StronglySorted R l -> StronglySorted R' (map f l).
Proof.
  intros HR Hs. induction Hs as [|a l Hs IH Ha]; simpl; constructor.
  - apply IH. intros x y Hx Hy. apply HR; now right.
  - apply Forall_forall. intros y Hy. apply in_map_iff in Hy as (b & <- & Hb).
    rewrite Forall_forall in Ha. apply HR; [now left | now right | auto].
Qed.

Lemma wf_trace text : forall n m,
  wf n = true -> trace_node n text = Some m -> wf m = true.
Proof.
  induction text as [|c text IH]; intros n m Hwf Htr; simpl in Htr.
  - now inversion Htr; subst.
  - destruct (Dict.get (next n) c) as [nxt|] eqn:E; [|discriminate].
    apply (IH nxt m); auto.
    apply DictFacts.get_In in E. exact (wf_child _ _ _ Hwf E).
Qed.

(** The words that [complete] may return: stored, and extending the prefix. *)
Lemma complete_In self prefix k w :
  In w (complete self prefix k) ->
  String.prefix prefix w = true /\ contains self w = true.
Proof.
  rewrite complete_eq.
  destruct (trace_node (root self) prefix) as [node|] eqn:Htr; [|contradiction].
  intros H. apply in_map_iff in H as ([s w'] & Hw & H). cbn [snd] in Hw. subst.
  apply sorted_In in H. apply fold_offer_In in H as [[]|H].
  apply (In_collect_score_of _ _ _ _ Htr) in H as [Hs Hp].
  split; auto. apply contains_score_of. eauto.
Qed.

(** C2. The list returned by [complete] is ordered by score, highest first,
    and by word, smallest first, among equal scores: every word of the list
    is stored, and ranks before every word that follows it.  After
    inserting ("cat", 3.0), ("car", 9.0) and ("can", 1.0) into the empty
    trie, [complete("ca", 2)] is [["car", "cat"]]. *)
Theorem complete_ranked :
  (forall (self : Trie) (prefix : string) (k : Z),
      StronglySorted (ranked self) (complete self prefix k)) /\
  (let t := insert (insert (insert Trie_init "cat" 3%Q) "car" 9%Q) "can" 1%Q in
   complete t "ca" 2 = ["car"; "cat"]).
Proof.
  split; [|reflexivity].
  intros self prefix k. rewrite complete_eq.
  destruct (trace_node (root self) prefix) as [node|] eqn:Htr; [|constructor].
  apply StronglySorted_map with (R := fun a b => key_ltb b a = false).
  - assert (Hst : forall a,
               In a (sorted key_ltb (fold_left (offer k) (collect node prefix) [])) ->
               score_of self (snd a) = Some (fst a)).
    { intros [s w] H. apply sorted_In in H. apply fold_offer_In in H as [[]|H].
      now apply (In_collect_score_of _ _ _ _ Htr) in H. }
    intros a b Ha Hb Hab. exists (fst a), (fst b).
    split; [now apply Hst|]. split; [now apply Hst|].
    now apply key_ltb_false.
  - apply sorted_ordered; [apply key_ltb_asym | apply key_geb_trans].
Qed.

(** C3. For a trie whose dictionaries have unique keys, as those of Python
    have and as [invariant_run] shows of every reachable state, and for
    [k >= 0]: [complete(prefix, k)] returns at most [k] words; when fewer
    than [k] stored words extend the prefix it returns exactly these words;
    [complete(prefix, 0)] is empty; and when the path of the prefix does not
    exist the result is empty. *)
Theorem complete_bounded (self : Trie) (prefix : string) (k : Z) :
  wf (root self) = true -> 0 <= k ->
  Z.of_nat (List.length (complete self prefix k)) <= k /\
  (forall ws : list string,
      NoDup ws ->
      (forall w, In w ws <->
                 String.prefix prefix w = true /\ contains self w = true) ->
      Z.of_nat (List.length ws) < k ->
      Permutation (complete self prefix k) ws) /\
  complete self prefix 0 = [] /\
  (fst (_trace self prefix) = None -> complete self prefix k = []).
Proof.
  intros Hwf Hk. split; [|split; [|split]].
  - rewrite complete_eq.
    destruct (trace_node (root self) prefix) as [node|]; [|simpl; lia].
    rewrite length_map, (Permutation_length (sorted_perm _ _)).
    pose proof (fold_offer_length k (collect node prefix) []) as H.
    simpl in H. lia.
  - intros ws Hnd Hws Hlen.
    apply NoDup_Permutation; auto.
    + rewrite complete_eq.
      destruct (trace_node (root self) prefix) as [node|] eqn:Htr;
        [|constructor].
      apply Permutation_NoDup
        with (l := map snd (fold_left (offer k) (collect node prefix) [])).
      { apply Permutation_map, Permutation_sym, sorted_perm. }
      assert (Hsub : incl (map snd (collect node prefix)) ws).
      { intros w H. apply in_map_iff in H as ([s w'] & <- & H).
        apply (In_collect_score_of _ _ _ _ Htr) in H as [Hs Hp].
        apply Hws. split; auto. apply contains_score_of. eauto. }
      assert (Hndc : NoDup (map snd (collect node prefix))).
      { apply NoDup_collect. eapply wf_trace; eauto. }
      pose proof (NoDup_incl_length Hndc Hsub) as Hle.
      rewrite length_map in Hle.
      apply Permutation_NoDup with (l := map snd (collect node prefix)); auto.
      apply Permutation_map, Permutation_sym.
      apply (@fold_offer_room k (collect node prefix) []). simpl. lia.
    + intros w. split; [intros H; apply Hws; eapply complete_In; eauto|].
      intros H. apply Hws in H as [Hp Hc].
      apply contains_score_of in Hc as [s Hs]. rewrite complete_eq.
      destruct (trace_node (root self) prefix) as [node|] eqn:Htr.
      * assert (Hin : In (s, w) (collect node prefix))
          by (apply (In_collect_score_of _ _ _ _ Htr); auto).
        assert (Hsub : incl (map snd (collect node prefix)) ws).
        { intros w0 H. apply in_map_iff in H as ([s0 w'] & <- & H).
          apply (In_collect_score_of _ _ _ _ Htr) in H as [Hs0 Hp0].
          apply Hws. split; auto. apply contains_score_of. eauto. }
        assert (Hndc : NoDup (map snd (collect node prefix))).
        { apply NoDup_collect. eapply wf_trace; eauto. }
        pose proof (NoDup_incl_length Hndc Hsub) as Hle.
        rewrite length_map in Hle.
        apply in_map_iff. exists (s, w). split; auto.
        apply sorted_In.
        apply Permutation_in with (l := [] ++ collect node prefix); auto.
        apply Permutation_sym, fold_offer_room. simpl. lia.
      * apply prefix_append in Hp as [suffix ->].
        unfold score_of, score_at in Hs.
        rewrite trace_node_app, Htr in Hs. discriminate.
  - rewrite complete_eq.
    destruct (trace_node (root self) prefix) as [node|]; auto.
    now rewrite fold_offer_none.
  - rewrite fst_trace, complete_eq. now intros ->.
Qed.

Lemma complete_bounded_witness :
  let self := insert (insert (insert Trie_init "cat" 3%Q) "car" 9%Q) "dog" 1%Q in
  Z.of_nat (List.length (complete self "ca" 3)) <= 3 /\
  Permutation (complete self "ca" 3) ["cat"; "car"] /\
  complete self "ca" 0 = [] /\
  complete self "x" 3 = [].
Proof.
  set (self := insert (insert (insert Trie_init "cat" 3%Q) "car" 9%Q) "dog" 1%Q).
  assert (Hwf : wf (root self) = true) by reflexivity.
  assert (Hk : 0 <= 3) by lia.
  destruct (@complete_bounded self "ca" 3 Hwf Hk) as (H1 & H2 & H3 & _).
  destruct (@complete_bounded self "x" 3 Hwf Hk) as (_ & _ & _ & H4).
  split; [exact H1|]. split; [|split; [exact H3 | apply H4; reflexivity]].
  apply H2.
  - repeat constructor; simpl; intuition discriminate.
  - intros w. split.
    + intros [<-|[<-|[]]]; split; reflexivity.
    + intros [Hp Hc]. apply prefix_append in Hp as [suffix ->].
      rewrite contains_eq, trace_node_app in Hc.
      destruct suffix as [|c suffix]; [discriminate|].
      destruct (Ascii.eqb_spec "t" c) as [<-|Ht];
        [destruct suffix; [now left | discriminate]|].
      destruct (Ascii.eqb_spec "r" c) as [<-|Hr];
        [destruct suffix; [right; now left | discriminate]|].
      exfalso.
      let v := eval vm_compute in (trace_node (root self) "ca") in
      change (trace_node (root self) "ca") with v in Hc.
      cbn [trace_node next Dict.get] in Hc.
      apply Ascii.eqb_neq in Ht, Hr. rewrite Ht, Hr in Hc. discriminate.
  - simpl. lia.
Defined.

(** The model of [heapq] keeps its contract: after every operation the
    items are in ascending order, so that [heap[0]] is the smallest. *)
Lemma offer_ascending k h x :
  StronglySorted (fun a b => tuple_ltb b a = false) h ->
  StronglySorted (fun a b => tuple_ltb b a = false) (offer k h x).
Proof.
  intros Hs. unfold offer, heapq.heappush, heapq.heappushpop.
  destruct (Z.ltb (Z.of_nat (List.length h)) k).
  - apply sorted_insert_ordered;
      [exact tuple_ltb_asym | exact tuple_geb_trans | assumption].
  - destruct h as [|top rest]; auto.
    destruct (tuple_ltb top x); auto.
    apply sorted_insert_ordered;
      [exact tuple_ltb_asym | exact tuple_geb_trans |].
    now inversion Hs.
Qed.

Lemma dfs_ascending k n word :
  StronglySorted (fun a b => tuple_ltb b a = false) (dfs k n word []).
Proof.
  rewrite dfs_collect.
  assert (H : StronglySorted (fun a b => tuple_ltb b a = false) [])
    by constructor.
  revert H. generalize (@nil (Q * string)).
  induction (collect n word) as [|x l IH]; intros h Hs; simpl; auto.
  apply IH. now apply offer_ascending.
Qed.

(** ** When the bounded heap keeps the empty word *)

Lemma tuple_ltb_irrefl e : tuple_ltb e e = false.
Proof.
  destruct (tuple_ltb e e) eqn:E; auto.
  pose proof (tuple_ltb_asym _ _ E). congruence.
Qed.

Lemma empty_word_below e y :
  snd e = "" -> snd y <> "" -> tuple_ltb y e = false -> tuple_ltb e y = true.
Proof.
  intros He Hy H. apply tuple_ltb_false in H. apply tuple_ltb_true.
  destruct H as [H|[H _]]; auto. right. split; auto.
  rewrite He. destruct (snd y); [congruence | reflexivity].
Qed.

Lemma filter_all (B : Type) (f : B -> bool) l :
  (forall x, In x l -> f x = true) -> filter f l = l.
Proof.
  induction l as [|x l IH]; simpl; intros H; auto.
  rewrite (H x (or_introl eq_refl)), IH; auto.
Qed.

Lemma filter_length_cons (B : Type) (f : B -> bool) x l :
  List.length (filter f (x :: l)) =
  ((if f x then 1 else 0) + List.length (filter f l))%nat.
Proof. simpl. now destruct (f x). Qed.

Lemma filter_sorted_insert_length (B : Type) (f : B -> bool) ltb x l :
  List.length (filter f (sorted_insert ltb x l)) =
  List.length (filter f (x :: l)).
Proof.
  induction l as [|y l IH]; auto.
  cbn [sorted_insert]. destruct (ltb y x); auto.
  rewrite filter_length_cons, IH, !filter_length_cons. lia.
Qed.

Lemma NoDup_map_filter (B C : Type) (g : B -> C) (f : B -> bool) l :
  NoDup (map g l) -> NoDup (map g (filter f l)).
Proof.
  induction l as [|x l IH]; simpl; intros H; auto.
  inversion H; subst. destruct (f x); simpl; auto.
  constructor; auto. intros Hin. apply in_map_iff in Hin as (y & Hy & Hin).
  apply filter_In in Hin as [Hin _]. apply H2. rewrite <- Hy.
  now apply in_map.
Qed.

(** A pair with the empty word stays in the heap as long as fewer than [k]
    of the pairs offered rank above it. *)
Lemma heap_keeps_empty_word k e l : forall h,
  snd e = "" ->
  StronglySorted (fun a b => tuple_ltb b a = false) h ->
  In e h ->
  (forall y, In y h -> y = e \/ snd y <> "") ->
  (forall y, In y l -> snd y <> "") ->
  Z.of_nat (List.length (filter (tuple_ltb e) h) +
            List.length (filter (tuple_ltb e) l)) < k ->
  In e (fold_left (offer k) l h).
Proof.
  intros h He. revert h.
  induction l as [|x l IH]; intros h Hs Hin Hor Hl Hc; auto.
  cbn [fold_left]. rewrite filter_length_cons in Hc.
  assert (Hx : snd x <> "") by (apply Hl; now left).
  assert (Hl' : forall y, In y l -> snd y <> "") by (intros; apply Hl; now right).
  unfold offer, heapq.heappush, heapq.heappushpop.
  destruct (Z.ltb_spec (Z.of_nat (List.length h)) k) as [Hroom|Hfull].
  - apply IH; auto.
    + apply sorted_insert_ordered;
        [exact tuple_ltb_asym | exact tuple_geb_trans | assumption].
    + apply (Permutation_in _ (Permutation_sym (sorted_insert_perm _ _ _))).
      now right.
    + intros y Hy. apply (Permutation_in _ (sorted_insert_perm _ _ _)) in Hy.
      destruct Hy as [<-|Hy]; auto.
    + rewrite filter_sorted_insert_length, filter_length_cons. lia.
  - destruct h as [|top tl]; [contradiction|].
    destruct (tuple_ltb top x) eqn:Etop.
    + inversion Hs as [|? ? Hstl Htop]; subst.
      rewrite filter_length_cons in Hc.
      assert (Hetl : In e tl).
      { destruct (Forall_Exists_dec (fun y => snd y <> "")
                    (fun y => match string_dec (snd y) "" with
                              | left E => right (fun H => H E)
                              | right N => left N
                              end) tl) as [Hall|Hex].
        - exfalso. destruct Hin as [->|Hin].
          + assert (Hf : filter (tuple_ltb e) tl = tl).
            { apply filter_all. intros y Hy. rewrite Forall_forall in Hall, Htop.
              apply empty_word_below; auto. }
            rewrite Hf, Etop in Hc. simpl in Hfull. lia.
          + rewrite Forall_forall in Hall. now apply (Hall e Hin).
        - apply Exists_exists in Hex as (y & Hy & Hne).
          destruct (Hor y (or_intror Hy)) as [->|Hn]; auto. contradiction. }
      apply IH; auto.
      * apply sorted_insert_ordered;
          [exact tuple_ltb_asym | exact tuple_geb_trans | assumption].
      * apply (Permutation_in _ (Permutation_sym (sorted_insert_perm _ _ _))).
        now right.
      * intros y Hy. apply (Permutation_in _ (sorted_insert_perm _ _ _)) in Hy.
        destruct Hy as [<-|Hy]; auto. apply Hor. now right.
      * rewrite filter_sorted_insert_length, filter_length_cons. lia.
    + apply IH; auto. lia.
Qed.

Lemma insert_empty_word self s :
  insert self "" s =
  mkTrie (Node_ (next (root self)) true s)
         (if end_ (root self) then _count_words self else _count_words self + 1)
         (_count_nodes self).
Proof. reflexivity. Qed.

Lemma remove_empty_word self :
  end_ (root self) = true ->
  remove self "" =
  (true, mkTrie (Node_ (next (root self)) false 0%Q)
                (_count_words self - 1) (_count_nodes self)).
Proof. intros H. unfold remove, _trace. simpl. now rewrite H. Qed.

Lemma complete_keeps_empty_word self s k ws :
  wf (root self) = true ->
  NoDup ws ->
  (forall w, In w ws <->
             w <> "" /\
             exists s', score_of (insert self "" s) w = Some s' /\ Qle s s') ->
  Z.of_nat (List.length ws) < k ->
  In "" (complete (insert self "" s) "" k).
Proof.
  intros Hwf Hnd Hws Hk.
  set (t := insert self "" s) in *.
  assert (Hwt : wf (root t) = true).
  { unfold t. rewrite insert_eq. cbn [root]. now apply wf_insert. }
  assert (Htr : trace_node (root t) "" = Some (root t)) by reflexivity.
  rewrite complete_eq, Htr.
  pose proof (NoDup_collect (root t) "" Hwt) as Hndc.
  assert (Hsc : forall s' w, In (s', w) (collect (root t) "") ->
                             score_of t w = Some s').
  { intros s' w H. now apply (In_collect_score_of _ _ _ _ Htr) in H. }
  rewrite collect_eq in Hndc, Hsc.
  rewrite collect_eq.
  change (end_ (root t)) with true in *.
  change (score (root t)) with s in *.
  set (rest := flat_map _ _) in *.
  assert (Hrest : forall y, In y rest -> snd y <> "").
  { intros [s' w] H. apply in_flat_map in H as (c & _ & H).
    destruct (Dict.get (next (root t)) c) as [ch|]; [|contradiction].
    apply In_collect in H as (suffix & m & -> & _).
    simpl. discriminate. }
  simpl app in *. cbn [fold_left].
  assert (Hpos : 0 < k) by lia.
  assert (H0 : offer k [] (s, "") = [(s, "")]).
  { unfold offer. simpl. now destruct (Z.ltb_spec 0 k); [|lia]. }
  rewrite H0.
  apply in_map_iff. exists (s, ""). split; auto.
  apply sorted_In.
  apply heap_keeps_empty_word; auto.
  - repeat constructor.
  - now left.
  - intros y [<-|[]]. now left.
  - cbn [filter]. rewrite tuple_ltb_irrefl. cbn [List.length Nat.add].
    assert (Hle : (List.length (map snd (filter (tuple_ltb (s, "")) rest))
                   <= List.length ws)%nat).
    { apply NoDup_incl_length.
      - apply NoDup_map_filter. simpl in Hndc. now inversion Hndc.
      - intros w H. apply in_map_iff in H as ([s' w'] & <- & H).
        apply filter_In in H as [Hin Hgt]. cbn [snd].
        apply Hws. split; [exact (Hrest _ Hin)|].
        exists s'. split; [apply Hsc; now right|].
        apply tuple_ltb_true in Hgt. cbn [fst snd] in Hgt.
        destruct Hgt as [Hlt|[Heq _]].
        + now apply Qlt_le_weak.
        + rewrite Heq. apply Qle_refl. }
    rewrite length_map in Hle. lia.
Qed.

(** C10. The empty string is a word like any other.  For a trie with unique
    keys, [insert("", s)] leaves [node_count] unchanged, makes
    [contains("")] true and adds one to [word_count] when "" was not
    stored.  [complete("", k)] then lists "" whenever fewer than [k] stored
    non-empty words have a score greater than or equal to [s].
    [remove("")] returns [True], makes [contains("")] false and keeps the
    root with all its children. *)
Theorem empty_string_is_a_word (self : Trie) (s : Q) :
  wf (root self) = true ->
  let t := insert self "" s in
  _count_nodes t = _count_nodes self /\
  contains t "" = true /\
  (contains self "" = false -> _count_words t = _count_words self + 1) /\
  (forall (k : Z) (ws : list string),
      NoDup ws ->
      (forall w, In w ws <->
                 w <> "" /\ exists s', score_of t w = Some s' /\ Qle s s') ->
      Z.of_nat (List.length ws) < k ->
      In "" (complete t "" k)) /\
  fst (remove t "") = true /\
  contains (snd (remove t "")) "" = false /\
  next (root (snd (remove t ""))) = next (root self) /\
  _count_nodes (snd (remove t "")) = _count_nodes self.
Proof.
  intros Hwf t.
  split; [reflexivity|]. split; [reflexivity|]. split.
  { unfold t. rewrite insert_empty_word, contains_eq. simpl. now intros ->. }
  split.
  { intros k ws. now apply complete_keeps_empty_word. }
  unfold t. rewrite insert_empty_word, remove_empty_word by reflexivity.
  repeat split.
Qed.

Lemma empty_string_is_a_word_witness :
  let self := insert Trie_init "a" 2%Q in
  let t := insert self "" 3%Q in
  wf (root self) = true /\
  _count_nodes t = _count_nodes self /\
  contains t "" = true /\
  _count_words t = _count_words self + 1 /\
  In "" (complete t "" 1) /\
  fst (remove t "") = true /\
  contains (snd (remove t "")) "" = false.
Proof.
  set (self := insert Trie_init "a" 2%Q).
  assert (Hwf : wf (root self) = true) by reflexivity.
  destruct (@empty_string_is_a_word self 3%Q Hwf) as (H1 & H2 & H3 & H4 & H5 & H6 & _).
  split; [exact Hwf|]. split; [exact H1|]. split; [exact H2|].
  split; [apply H3; reflexivity|]. split; [|split; [exact H5 | exact H6]].
  apply (H4 1 []).
  - constructor.
  - intros w. split; [contradiction|]. intros [Hne (s' & Hs & Hle)].
    destruct w as [|c w]; [congruence|].
    destruct (Ascii.eqb_spec "a" c) as [<-|Ha].
    + destruct w; [|discriminate].
      inversion Hs; subst. now apply Hle.
    + apply Ascii.eqb_neq in Ha. unfold score_of in Hs.
      rewrite score_at_cons in Hs.
      let v := eval vm_compute in (next (root (insert self "" 3%Q))) in
      change (next (root (insert self "" 3%Q))) with v in Hs.
      cbn [Dict.get] in Hs. rewrite Ha in Hs. discriminate.
  - simpl. lia.
Defined.

(** The statement of C10 as the specification has it fails: with "a" stored
    at score 2 and "" at score 1, [complete("", 1)] is [["a"]]. *)
Lemma empty_string_evicted :
  let t := insert (insert Trie_init "a" 2%Q) "" 1%Q in
  1 <= 1 /\ contains t "" = true /\
  complete t "" 1 = ["a"] /\ ~ In "" (complete t "" 1).
Proof.
  cbv zeta. repeat split; try reflexivity; try lia.
  intros [H|[]]. discriminate.
Qed.

(** * Further properties of the trie *)

(** ** More on dictionaries *)

Lemma dict_set_set (V : Type) (d : list (ascii * V)) k v v' :
  Dict.set (Dict.set d k v) k v' = Dict.set d k v'.
Proof.
  induction d as [|[k0 v0] d IH]; simpl.
  - now rewrite Ascii.eqb_refl.
  - destruct (Ascii.eqb k0 k) eqn:E; simpl; rewrite E; congruence.
Qed.

Lemma dict_set_same (V : Type) (d : list (ascii * V)) k v :
  Dict.get d k = Some v -> Dict.set d k v = d.
Proof.
  induction d as [|[k0 v0] d IH]; simpl; [discriminate|].
  destruct (Ascii.eqb k0 k); intros H.
  - now inversion H.
  - now rewrite IH.
Qed.

Lemma dict_del_set_new (V : Type) (d : list (ascii * V)) k v :
  Dict.get d k = None -> Dict.del (Dict.set d k v) k = d.
Proof.
  induction d as [|[k0 v0] d IH]; simpl.
  - now rewrite Ascii.eqb_refl.
  - destruct (Ascii.eqb k0 k) eqn:E; [discriminate|].
    intros H. simpl. rewrite E. now rewrite IH.
Qed.

Lemma dict_In_get (V : Type) (d : list (ascii * V)) k v :
  NoDup (Dict.keys d) -> In (k, v) d -> Dict.get d k = Some v.
Proof.
  unfold Dict.keys. induction d as [|[k0 v0] d IH]; simpl; [contradiction|].
  intros Hnd [H|H]; inversion Hnd; subst.
  - inversion H; subst. now rewrite Ascii.eqb_refl.
  - destruct (Ascii.eqb_spec k0 k) as [->|Hne]; auto.
    exfalso. apply H2. change k with (fst (k, v)). now apply in_map.
Qed.

Lemma dict_get_nonempty (V : Type) (d : list (ascii * V)) k v :
  Dict.get d k = Some v -> Dict.nonempty d = true.
Proof. destruct d; [discriminate | reflexivity]. Qed.

(** ** [insert] and lookups *)

Lemma contains_as_score self w :
  contains self w = match score_of self w with Some _ => true | None => false end.
Proof.
  rewrite contains_eq. unfold score_of, score_at.
  destruct (trace_node (root self) w) as [m|]; auto. now destruct (end_ m).
Qed.

(** X1. After [insert(word, freq)], [word] is contained with score [freq],
    and every other word is contained, with the score it has, exactly as
    before. *)
Theorem insert_then_lookup (self : Trie) (word : string) (freq : Q) :
  forall w : string,
    score_of (insert self word freq) w =
      (if String.eqb w word then Some freq else score_of self w) /\
    contains (insert self word freq) w =
      (String.eqb w word || contains self w).
Proof.
  intros w. split; [apply score_of_insert|].
  rewrite !contains_as_score, score_of_insert.
  now destruct (String.eqb w word).
Qed.

Lemma terminals_insert word freq : forall node,
  terminals (insert_node word freq node) =
  (terminals node +
   match score_at node word with Some _ => 0 | None => 1 end)%nat.
Proof.
  induction word as [|ch word IH]; intros node.
  - cbn [insert_node]. rewrite (terminals_eq node), (terminals_eq (Node_ _ _ _)).
    unfold score_at. cbn [trace_node next end_].
    destruct (end_ node); lia.
  - cbn [insert_node]. rewrite (terminals_eq node), (terminals_eq (Node_ _ _ _)).
    rewrite score_at_cons. cbn [next end_].
    destruct (Dict.get (next node) ch) as [c|] eqn:E.
    + pose proof (DictFacts.total_set_mem terminals _ _
                    (insert_node word freq c) E) as Ht.
      rewrite IH in Ht. lia.
    + rewrite (DictFacts.total_set_new terminals _ _ _ E), IH.
      rewrite score_at_new_node. change (terminals new_node) with 0%nat. lia.
Qed.

Lemma size_insert word freq : forall node,
  (size node <= size (insert_node word freq node)
   <= size node + String.length word)%nat.
Proof.
  induction word as [|ch word IH]; intros node.
  - cbn [insert_node String.length].
    rewrite (size_eq node), (size_eq (Node_ _ _ _)). cbn [next]. lia.
  - cbn [insert_node String.length].
    rewrite (size_eq node), (size_eq (Node_ _ _ _)). cbn [next].
    destruct (Dict.get (next node) ch) as [c|] eqn:E.
    + pose proof (DictFacts.total_set_mem size _ _
                    (insert_node word freq c) E) as Hs.
      specialize (IH c). lia.
    + rewrite (DictFacts.total_set_new size _ _ _ E).
      specialize (IH new_node). change (size new_node) with 1%nat in IH. lia.
Qed.

(** X2. [insert(word, freq)] adds one to [word_count] exactly when [word]
    was not contained, never lowers [node_count] and raises it by at most
    the length of [word]. *)
Theorem insert_counters (self : Trie) (word : string) (freq : Q) :
  _count_words (insert self word freq) =
    _count_words self + (if contains self word then 0 else 1) /\
  _count_nodes self <= _count_nodes (insert self word freq)
    <= _count_nodes self + Z.of_nat (String.length word).
Proof.
  rewrite insert_eq. cbv zeta. cbn [_count_words _count_nodes].
  rewrite terminals_insert, contains_as_score. fold (score_of self word).
  pose proof (size_insert word freq (root self)).
  destruct (score_of self word); lia.
Qed.

Lemma insert_node_twice word s1 s2 : forall node,
  insert_node word s2 (insert_node word s1 node) = insert_node word s2 node.
Proof.
  induction word as [|ch word IH]; intros node; cbn [insert_node next end_ score].
  - reflexivity.
  - rewrite DictFacts.get_set_eq, dict_set_set, IH. reflexivity.
Qed.

(** X3. The last write wins: inserting a word twice leaves the trie that the
    second [insert] alone produces, counters included. *)
Theorem insert_last_wins (self : Trie) (word : string) (s1 s2 : Q) :
  insert (insert self word s1) word s2 = insert self word s2.
Proof.
  rewrite (insert_eq (insert self word s1)), !(insert_eq self). cbv zeta.
  cbn [root _count_words _count_nodes]. rewrite insert_node_twice.
  f_equal; lia.
Qed.

(** ** [remove] and lookups *)

Lemma prune_step_count parent c cur running cn :
  cn - 1 <= snd (prune_step parent c (cur, running, cn)) <= cn.
Proof.
  unfold prune_step.
  destruct running; [|simpl; lia].
  destruct (Dict.nonempty (next cur) || end_ cur); [simpl; lia|].
  destruct c as [c|]; [|simpl; lia].
  destruct (Dict.mem (next parent) c); simpl; lia.
Qed.

Lemma prune_rec_count text : forall node last cn,
  cn - Z.of_nat (String.length text)
  <= snd (prune_rec node text last cn) <= cn.
Proof.
  induction text as [|ch text IH]; intros node last cn;
    cbn [prune_rec String.length].
  - simpl. lia.
  - destruct (Dict.get (next node) ch) as [nxt|]; [|simpl; lia].
    specialize (IH nxt last cn).
    destruct (prune_rec nxt text last cn) as [[cur running] cn1].
    pose proof (prune_step_count node (Some ch) cur running cn1).
    cbn [snd] in IH. lia.
Qed.

(** X4. In a state reached from the empty trie, [remove] of a contained word
    returns [True]; afterwards the word is not contained, every other word
    keeps its membership and score, [word_count] is one less, and
    [node_count] has dropped by at most the length of the word and is still
    at least 1.  A second [remove] of the word returns [False] and changes
    nothing. *)
Theorem remove_then_lookup (calls : list call) (word : string) :
  contains (run calls) word = true ->
  let t := run calls in
  let t' := snd (remove t word) in
  fst (remove t word) = true /\
  (forall w, score_of t' w = if String.eqb w word then None else score_of t w) /\
  (forall w, contains t' w = negb (String.eqb w word) && contains t w) /\
  _count_words t' = _count_words t - 1 /\
  _count_nodes t - Z.of_nat (String.length word) <= _count_nodes t'
    <= _count_nodes t /\
  1 <= _count_nodes t' /\
  remove t' word = (false, t').
Proof.
  intros Hc t t'.
  pose proof (invariant_run calls) as Hinv. fold t in Hinv, Hc.
  destruct (@remove_present t word Hinv Hc) as (u & Hrm & Hu & Hsc).
  assert (Ht' : t' = u) by (unfold t'; now rewrite Hrm). rewrite Ht'.
  assert (Hcu : forall w, contains u w = negb (String.eqb w word) && contains t w).
  { intros w. rewrite !contains_as_score, Hsc.
    now destruct (String.eqb w word). }
  split; [now rewrite Hrm|]. split; [exact Hsc|]. split; [exact Hcu|].
  assert (Hcnt : _count_words u = _count_words t - 1 /\
                 _count_nodes t - Z.of_nat (String.length word)
                 <= _count_nodes u <= _count_nodes t).
  { rewrite remove_eq in Hrm. rewrite contains_eq in Hc.
    destruct (trace_node (root t) word) as [m|]; [|discriminate].
    rewrite Hc in Hrm.
    pose proof (prune_rec_count word (root t) (Node_ (next m) false 0%Q)
                  (_count_nodes t)) as Hb.
    destruct (prune_rec (root t) word (Node_ (next m) false 0%Q)
                (_count_nodes t)) as [[r running] cn].
    inversion Hrm; subst u. cbn [_count_words _count_nodes snd] in *. lia. }
  destruct Hcnt as [Hw Hn]. split; [exact Hw|]. split; [exact Hn|].
  split.
  - destruct Hu as (_ & _ & _ & Hsz). rewrite Hsz, size_eq. lia.
  - apply remove_absent. rewrite Hcu, String.eqb_refl. reflexivity.
Qed.

Lemma remove_then_lookup_witness :
  let calls := [Insert "cats" 1%Q; Insert "car" 2%Q] in
  contains (run calls) "cats" = true /\
  fst (remove (run calls) "cats") = true /\
  contains (snd (remove (run calls) "cats")) "car" = true /\
  _count_words (snd (remove (run calls) "cats")) = 1.
Proof.
  assert (Hc : contains (run [Insert "cats" 1%Q; Insert "car" 2%Q]) "cats"
               = true) by reflexivity.
  destruct (@remove_then_lookup [Insert "cats" 1%Q; Insert "car" 2%Q] "cats" Hc)
    as (H1 & _ & H3 & H4 & _).
  split; [exact Hc|]. split; [exact H1|]. split; [|exact H4].
  rewrite H3. reflexivity.
Defined.

(** ** Nodes that mark no word have score [0.0] *)

Lemma zeroed_eq n :
  zeroed n =
  (end_ n || is_zero (score n)) && forallb (fun p => zeroed (snd p)) (next n).
Proof. destruct n; reflexivity. Qed.

Lemma is_zero_eq q : is_zero q = true -> q = 0%Q.
Proof.
  destruct q as [a b]. unfold is_zero. cbn [Qnum Qden].
  intros H. apply andb_true_iff in H as [Ha Hb].
  apply Z.eqb_eq in Ha. apply Pos.eqb_eq in Hb. now subst.
Qed.

Lemma zeroed_child n c ch :
  zeroed n = true -> In (c, ch) (next n) -> zeroed ch = true.
Proof.
  rewrite zeroed_eq, andb_true_iff. intros [_ H] Hin.
  rewrite forallb_forall in H. exact (H _ Hin).
Qed.

Lemma zeroed_insert word freq : forall node,
  zeroed node = true -> zeroed (insert_node word freq node) = true.
Proof.
  induction word as [|ch word IH]; intros node Hz;
    rewrite zeroed_eq in Hz; apply andb_true_iff in Hz as [Hs Hc];
    cbn [insert_node]; rewrite zeroed_eq; cbn [next end_ score].
  - exact Hc.
  - rewrite Hs. cbn [andb]. apply forallb_set; auto. apply IH.
    destruct (Dict.get (next node) ch) as [c|] eqn:E; [|reflexivity].
    apply DictFacts.get_In in E. rewrite forallb_forall in Hc. exact (Hc _ E).
Qed.

Lemma zeroed_prune text : forall node m cn,
  trace_node node text = Some m -> zeroed node = true ->
  zeroed (fst (fst (prune_rec node text (Node_ (next m) false 0%Q) cn))) = true.
Proof.
  induction text as [|ch text IH]; intros node m cn Htr Hz;
    cbn [trace_node prune_rec] in *.
  - inversion Htr; subst m. cbn [fst]. rewrite zeroed_eq in *.
    apply andb_true_iff in Hz as [_ Hc]. exact Hc.
  - destruct (Dict.get (next node) ch) as [nxt|] eqn:E; [|discriminate].
    assert (Hzn : zeroed nxt = true).
    { apply (@zeroed_child node ch nxt Hz). now apply DictFacts.get_In. }
    specialize (IH nxt m cn Htr Hzn).
    destruct (prune_rec nxt text (Node_ (next m) false 0%Q) cn)
      as [[cur running] cn1]. cbn [fst] in IH.
    pose proof Hz as Hz0.
    rewrite zeroed_eq in Hz. apply andb_true_iff in Hz as [Hs Hc].
    assert (Hrelink :
      zeroed (Node_ (Dict.set (next node) ch cur) (end_ node) (score node))
      = true).
    { rewrite zeroed_eq. cbn [next end_ score]. rewrite Hs. cbn [andb].
      now apply forallb_set. }
    unfold prune_step.
    destruct running; [|exact Hrelink].
    destruct (Dict.nonempty (next cur) || end_ cur); [exact Hrelink|].
    destruct (Dict.mem (next node) ch); [|exact Hz0].
    cbn [fst]. rewrite zeroed_eq. cbn [next end_ score]. rewrite Hs.
    cbn [andb]. now apply forallb_del.
Qed.

Lemma zeroed_step self c : zeroed (root self) = true -> zeroed (root (step self c)) = true.
Proof.
  intros Hz. destruct c; simpl; auto.
  - rewrite insert_eq. cbn [root]. now apply zeroed_insert.
  - rewrite remove_eq.
    destruct (trace_node (root self) word) as [m|] eqn:Htr; auto.
    destruct (end_ m); auto.
    pose proof (zeroed_prune word (root self) (_count_nodes self) Htr Hz) as H.
    destruct (prune_rec (root self) word (Node_ (next m) false 0%Q)
                (_count_nodes self)) as [[r running] cn].
    exact H.
Qed.

Lemma zeroed_run calls : zeroed (root (run calls)) = true.
Proof.
  unfold run.
  assert (H : zeroed (root Trie_init) = true) by reflexivity.
  revert H. generalize Trie_init.
  induction calls as [|c calls IH]; intros t Ht; simpl; auto.
  apply IH. now apply zeroed_step.
Qed.

(** ** [insert] followed by [remove] *)

Lemma trace_insert word freq : forall node,
  exists m, trace_node (insert_node word freq node) word = Some m /\
            end_ m = true.
Proof.
  induction word as [|ch word IH]; intros node; cbn [insert_node trace_node].
  - eexists. split; reflexivity.
  - cbn [next]. rewrite DictFacts.get_set_eq. apply IH.
Qed.

(** Pruning after the insertion of a word that was not stored gives the
    node back as it was. *)
Lemma insert_prune_roundtrip word freq : forall node m cn,
  score_at node word = None ->
  live node = true -> zeroed node = true ->
  trace_node (insert_node word freq node) word = Some m ->
  let res := prune_rec (insert_node word freq node) word
               (Node_ (next m) false 0%Q) cn in
  fst (fst res) = node /\ (snd (fst res) = false -> in_use node = true).
Proof.
  induction word as [|ch word IH]; intros node m cn Hsc Hl Hz Htr.
  - cbn [insert_node trace_node prune_rec] in *. inversion Htr; subst m.
    cbn [fst snd next]. split; [|discriminate].
    unfold score_at in Hsc. cbn [trace_node] in Hsc.
    rewrite zeroed_eq in Hz. apply andb_true_iff in Hz as [Hs _].
    destruct node as [nx e sc]. cbn [end_ score next] in *.
    destruct e; [discriminate|]. cbn [orb] in Hs.
    now rewrite (is_zero_eq _ Hs).
  - cbn [insert_node trace_node prune_rec next] in *.
    rewrite DictFacts.get_set_eq in *. rewrite score_at_cons in Hsc.
    set (child := match Dict.get (next node) ch with
                  | Some c => c
                  | None => new_node
                  end) in *.
    assert (Hchild : score_at child word = None /\ live child = true /\
                     zeroed child = true).
    { unfold child. destruct (Dict.get (next node) ch) as [c|] eqn:E.
      - apply DictFacts.get_In in E. repeat split; auto.
        + now destruct (live_child _ _ _ Hl E).
        + exact (@zeroed_child node ch c Hz E).
      - repeat split. apply score_at_new_node. }
    destruct Hchild as (Hsc' & Hl' & Hz').
    destruct (IH child m cn Hsc' Hl' Hz' Htr) as [Hnode Hrun].
    destruct (prune_rec (insert_node word freq child) word
                (Node_ (next m) false 0%Q) cn) as [[cur running] cn1].
    cbn [fst snd] in Hnode, Hrun. subst cur.
    assert (Hused : in_use child = true ->
                    Dict.get (next node) ch = Some child).
    { unfold child. destruct (Dict.get (next node) ch); auto. discriminate. }
    assert (Hrelink :
      in_use child = true ->
      Node_ (Dict.set (Dict.set (next node) ch (insert_node word freq child))
                      ch child) (end_ node) (score node) = node /\
      in_use node = true).
    { intros Hu. apply Hused in Hu. rewrite dict_set_set, (dict_set_same _ _ Hu).
      split; [now destruct node|].
      unfold in_use. now rewrite (dict_get_nonempty _ _ Hu). }
    unfold prune_step. cbn [next end_ score]. fold (in_use child).
    destruct running.
    + destruct (in_use child) eqn:Hu.
      * cbn [fst snd]. destruct (Hrelink eq_refl). auto.
      * assert (Hm : Dict.mem (Dict.set (next node) ch
                                 (insert_node word freq child)) ch = true).
        { apply DictFacts.mem_get. eexists. apply DictFacts.get_set_eq. }
        rewrite Hm. cbn [fst snd]. split; [|discriminate].
        assert (Hnone : Dict.get (next node) ch = None).
        { destruct (Dict.get (next node) ch) as [c|] eqn:E; auto.
          apply DictFacts.get_In in E.
          destruct (live_child _ _ _ Hl E) as [Hc _].
          unfold child in Hu. congruence. }
        rewrite (dict_del_set_new _ _ _ Hnone). now destruct node.
    + cbn [fst snd]. destruct (Hrelink (Hrun eq_refl)). auto.
Qed.

(** X5. Round trip: in a state reached from the empty trie, inserting a word
    that is not contained and removing it at once gives back the very same
    trie: same tree, same order of the children, same scores and
    counters. *)
Theorem insert_then_remove (calls : list call) (word : string) (freq : Q) :
  contains (run calls) word = false ->
  remove (insert (run calls) word freq) word = (true, run calls).
Proof.
  intros Hc. set (t := run calls) in *.
  pose proof (invariant_run calls) as Hinv. fold t in Hinv.
  pose proof (zeroed_run calls) as Hz. fold t in Hz.
  destruct Hinv as (Hwf & Hl & Hw & Hn).
  apply contains_false_score_of in Hc. unfold score_of in Hc.
  rewrite remove_eq, insert_eq. cbv zeta. cbn [root _count_words _count_nodes].
  destruct (trace_insert word freq (root t)) as (m & Htr & Hend).
  rewrite Htr, Hend.
  destruct (insert_prune_roundtrip word freq (root t)
              (_count_nodes t + Z.of_nat (size (insert_node word freq (root t)))
               - Z.of_nat (size (root t))) Hc Hl Hz Htr) as [Hroot _].
  pose proof (wf_insert word freq _ Hwf) as Hwi.
  pose proof (live_insert word freq _ Hl) as Hli.
  destruct (prune_rec (insert_node word freq (root t)) word
              (Node_ (next m) false 0%Q)
              (_count_nodes t + Z.of_nat (size (insert_node word freq (root t)))
               - Z.of_nat (size (root t)))) as [[r running] cn] eqn:Hp.
  cbn [fst] in Hroot. subst r.
  destruct (prune_rec_sound _ _ _ Htr Hend Hwi Hli Hp)
    as (_ & _ & _ & Hcn & _).
  rewrite terminals_insert, Hc.
  destruct t as [r cw cn0]. cbn [root _count_words _count_nodes] in *.
  f_equal. f_equal; lia.
Qed.

Lemma insert_then_remove_witness :
  let calls := [Insert "cat" 3%Q; Insert "car" 9%Q; Remove "cat"] in
  contains (run calls) "ca" = false /\
  remove (insert (run calls) "ca" 5%Q) "ca" = (true, run calls).
Proof.
  assert (Hc : contains (run [Insert "cat" 3%Q; Insert "car" 9%Q; Remove "cat"])
                 "ca" = false) by reflexivity.
  split; [exact Hc|].
  exact (@insert_then_remove
           [Insert "cat" 3%Q; Insert "car" 9%Q; Remove "cat"] "ca" 5%Q Hc).
Defined.

(** ** [items] *)

Lemma listing_eq n text :
  listing n text =
  (if end_ n then [(text, score n)] else []) ++
  flat_map (fun p => listing (snd p) (text ++ String (fst p) "")%string) (next n).
Proof.
  destruct n as [nx e s]. cbn [listing next end_ score]. f_equal.
  induction nx as [|[c ch] nx IH]; simpl; auto. now rewrite IH.
Qed.

Lemma gather_eq n text output :
  gather n text output =
  fold_left
    (fun out p => gather (snd p) (text ++ String (fst p) "")%string out)
    (next n)
    (if end_ n then output ++ [(text, score n)] else output).
Proof.
  destruct n as [nx e s]. cbn [gather next end_ score].
  generalize (if e then output ++ [(text, s)] else output).
  induction nx as [|[c ch] nx IH]; intros out; simpl; auto.
Qed.

(** [gather] appends to [output] the pairs of [listing]. *)
Lemma gather_listing n : forall text output,
  gather n text output = output ++ listing n text.
Proof.
  induction n as [nx e s IH] using Node_induction. intros text output.
  rewrite gather_eq, listing_eq. cbn [next end_ score].
  assert (H0 : (if e then output ++ [(text, s)] else output) =
               output ++ (if e then [(text, s)] else [])).
  { destruct e; auto. now rewrite app_nil_r. }
  rewrite H0, app_assoc.
  generalize (output ++ (if e then [(text, s)] else [])).
  induction nx as [|[c ch] nx IHnx]; intros out; cbn [fold_left flat_map fst snd].
  - now rewrite app_nil_r.
  - rewrite (IH c ch (or_introl eq_refl)), IHnx.
    + now rewrite app_assoc.
    + intros c' ch' Hin. apply (IH c'). now right.
Qed.

Lemma items_listing self : items self = listing (root self) "".
Proof. unfold items. now rewrite gather_listing. Qed.

Lemma length_flat_map (B C : Type) (f : B -> list C) l :
  List.length (flat_map f l) = list_sum (map (fun x => List.length (f x)) l).
Proof.
  induction l as [|x l IH]; simpl; auto. now rewrite length_app, IH.
Qed.

Lemma length_listing n : forall text,
  List.length (listing n text) = terminals n.
Proof.
  induction n as [nx e s IH] using Node_induction. intros text.
  rewrite listing_eq, terminals_eq, length_app, length_flat_map.
  cbn [next end_ score]. f_equal; [now destruct e|].
  unfold Dict.total. f_equal.
  induction nx as [|[c ch] nx IHnx]; simpl; auto.
  rewrite (IH c ch (or_introl eq_refl)). f_equal.
  apply IHnx. intros c' ch' Hin. apply (IH c'). now right.
Qed.

Lemma Permutation_flat_map_pointwise (B C : Type) (f g : B -> list C) l :
  (forall x, In x l -> Permutation (f x) (g x)) ->
  Permutation (flat_map f l) (flat_map g l).
Proof.
  induction l as [|x l IH]; intros H; simpl; auto.
  apply Permutation_app.
  - apply H. now left.
  - apply IH. intros y Hy. apply H. now right.
Qed.

Lemma flat_map_keys (B : Type) (g : ascii -> list B) (d : list (ascii * _Node)) :
  flat_map g (Dict.keys d) = flat_map (fun p => g (fst p)) d.
Proof.
  unfold Dict.keys. induction d as [|p d IH]; simpl; auto. now rewrite IH.
Qed.

Lemma map_flat_map (B C D : Type) (f : C -> D) (g : B -> list C) l :
  map f (flat_map g l) = flat_map (fun x => map f (g x)) l.
Proof.
  induction l as [|x l IH]; simpl; auto. now rewrite map_app, IH.
Qed.

(** With unique keys, [items] and the visit of [complete] meet the same
    pairs, in a different order. *)
Lemma listing_collect n : forall text,
  wf n = true ->
  Permutation (listing n text)
              (map (fun x => (snd x, fst x)) (collect n text)).
Proof.
  induction n as [nx e s IH] using Node_induction. intros text Hwf.
  rewrite listing_eq, collect_eq, map_app. cbn [next end_ score].
  pose proof (wf_keys _ Hwf) as Hk. cbn [next] in Hk.
  apply nodupb_NoDup in Hk.
  apply Permutation_app; [now destruct e|].
  rewrite map_flat_map.
  apply perm_trans with
    (flat_map
       (fun c =>
          map (fun x : Q * string => (snd x, fst x))
            match Dict.get nx c with
            | Some ch => collect ch (text ++ String c "")%string
            | None => []
            end) (Dict.keys nx)).
  - rewrite flat_map_keys. apply Permutation_flat_map_pointwise.
    intros [c ch] Hin. cbn [fst snd].
    rewrite (dict_In_get _ _ _ Hk Hin).
    apply (IH c ch Hin). exact (wf_child _ _ _ Hwf Hin).
  - apply Permutation_flat_map, Permutation_sym, sorted_perm.
Qed.

(** X6. In a state reached from the empty trie, [items()] lists every
    stored word exactly once with the score it has: its length is
    [word_count], no word occurs twice, and [(w, s)] is listed exactly when
    [w] is stored with score [s]. *)
Theorem items_are_the_stored_words (calls : list call) :
  let t := run calls in
  Z.of_nat (List.length (items t)) = _count_words t /\
  NoDup (map fst (items t)) /\
  (forall w s, In (w, s) (items t) <-> score_of t w = Some s).
Proof.
  intros t. destruct (invariant_run calls) as (Hwf & _ & Hw & _).
  fold t in Hwf, Hw. rewrite items_listing.
  pose proof (listing_collect (root t) "" Hwf) as Hperm.
  split; [now rewrite length_listing|]. split.
  - apply Permutation_NoDup with (l := map snd (collect (root t) "")).
    + apply Permutation_sym.
      apply perm_trans with
        (map fst (map (fun x : Q * string => (snd x, fst x))
                      (collect (root t) ""))).
      * now apply Permutation_map.
      * rewrite map_map. apply Permutation_refl.
    + now apply NoDup_collect.
  - intros w s.
    assert (Htr : trace_node (root t) "" = Some (root t)) by reflexivity.
    pose proof (In_collect_score_of t "" s w Htr) as Hin.
    assert (Hp : String.prefix "" w = true) by now destruct w.
    split.
    + intros H. apply (Permutation_in _ Hperm) in H.
      apply in_map_iff in H as ([s' w'] & Heq & H). cbn [fst snd] in Heq.
      inversion Heq; subst. now apply Hin in H.
    + intros H. apply (Permutation_in _ (Permutation_sym Hperm)).
      apply in_map_iff. exists (s, w). split; auto. apply Hin. auto.
Qed.

(** ** What the bounded heap keeps *)

(** Each offer drops at most one pair, among the new pair and the heap. *)
Lemma offer_drops k h x :
  exists dropped, Permutation (x :: h) (dropped ++ offer k h x).
Proof.
  unfold offer, heapq.heappush, heapq.heappushpop.
  destruct (Z.ltb (Z.of_nat (List.length h)) k).
  - exists []. apply Permutation_sym, sorted_insert_perm.
  - destruct h as [|top rest].
    + exists [x]. auto.
    + destruct (tuple_ltb top x).
      * exists [top]. simpl.
        apply perm_trans with (top :: x :: rest); [apply perm_swap|].
        apply perm_skip, Permutation_sym, sorted_insert_perm.
      * exists [x]. auto.
Qed.

Lemma fold_offer_NoDup k l : forall h,
  NoDup (map snd (h ++ l)) -> NoDup (map snd (fold_left (offer k) l h)).
Proof.
  induction l as [|x l IH]; intros h H; cbn [fold_left].
  - now rewrite app_nil_r in H.
  - apply IH. destruct (offer_drops k h x) as [dropped Hp].
    assert (Hq : Permutation (h ++ x :: l) (dropped ++ (offer k h x ++ l))).
    { apply perm_trans with ((x :: h) ++ l).
      - apply Permutation_sym. simpl. apply Permutation_middle.
      - rewrite app_assoc. now apply Permutation_app_tail. }
    apply (Permutation_map snd) in Hq.
    apply (Permutation_NoDup Hq) in H.
    rewrite map_app in H. now apply NoDup_app_remove_l in H.
Qed.

(** X7. [complete(prefix, k)] returns only stored words that start with
    [prefix], and, the keys of the dictionaries being unique, no word
    twice. *)
Theorem complete_sound (self : Trie) (prefix : string) (k : Z) :
  wf (root self) = true ->
  NoDup (complete self prefix k) /\
  forall w, In w (complete self prefix k) ->
            String.prefix prefix w = true /\ contains self w = true.
Proof.
  intros Hwf. split; [|intros w; apply complete_In].
  rewrite complete_eq.
  destruct (trace_node (root self) prefix) as [node|] eqn:Htr; [|constructor].
  apply Permutation_NoDup
    with (l := map snd (fold_left (offer k) (collect node prefix) [])).
  - apply Permutation_map, Permutation_sym, sorted_perm.
  - apply fold_offer_NoDup. cbn [app]. apply NoDup_collect.
    exact (wf_trace _ _ Hwf Htr).
Qed.

Lemma complete_sound_witness :
  let self := insert (insert (insert Trie_init "cat" 3%Q) "car" 9%Q) "dog" 1%Q in
  wf (root self) = true /\ NoDup (complete self "ca" 1) /\
  (In "car" (complete self "ca" 1) ->
   String.prefix "ca" "car" = true /\ contains self "car" = true).
Proof.
  set (self := insert (insert (insert Trie_init "cat" 3%Q) "car" 9%Q) "dog" 1%Q).
  assert (Hwf : wf (root self) = true) by reflexivity.
  destruct (@complete_sound self "ca" 1 Hwf) as [H1 H2].
  split; [exact Hwf|]. split; [exact H1 | apply H2].
Defined.

Lemma tuple_le_refl a : tuple_le a a.
Proof. apply tuple_ltb_false, tuple_ltb_irrefl. Qed.

Lemma offer_keeps_best k h x z :
  StronglySorted (fun a b => tuple_ltb b a = false) h ->
  kept_or_below k h z \/ z = x ->
  kept_or_below k (offer k h x) z.
Proof.
  intros Hs Hz. unfold offer, heapq.heappush, heapq.heappushpop, kept_or_below in *.
  destruct (Z.ltb_spec (Z.of_nat (List.length h)) k) as [Hroom|Hfull].
  - left. apply (Permutation_in _ (Permutation_sym (sorted_insert_perm _ _ _))).
    destruct Hz as [[Hin|[Hk _]]| ->]; [now right | lia | now left].
  - destruct h as [|top rest].
    + right. split; [exact Hfull | intros y []].
    + inversion Hs as [|? ? Hsr Htop]; subst. rewrite Forall_forall in Htop.
      assert (Hmin : forall y, In y (top :: rest) -> tuple_le top y).
      { intros y [<-|Hy]; [apply tuple_le_refl|].
        apply tuple_ltb_false. now apply Htop. }
      destruct (tuple_ltb top x) eqn:Etop.
      * assert (Htx : tuple_le top x).
        { apply tuple_ltb_false. now apply tuple_ltb_asym. }
        assert (Hbelow : forall z0, tuple_le z0 top ->
                  forall y, In y (sorted_insert tuple_ltb x rest) ->
                            tuple_le z0 y).
        { intros z0 Hz0 y Hy.
          apply (Permutation_in _ (sorted_insert_perm _ _ _)) in Hy.
          apply tuple_le_trans with top; auto.
          destruct Hy as [<-|Hy]; auto. apply Hmin. now right. }
        assert (Hlen : k <= Z.of_nat
                         (List.length (sorted_insert tuple_ltb x rest))).
        { rewrite sorted_insert_length. exact Hfull. }
        destruct Hz as [[[<-|Hin]|[_ Hall]]| ->].
        -- right. split; auto. apply Hbelow, tuple_le_refl.
        -- left.
           apply (Permutation_in _ (Permutation_sym (sorted_insert_perm _ _ _))).
           now right.
        -- right. split; auto. apply Hbelow, Hall. now left.
        -- left.
           apply (Permutation_in _ (Permutation_sym (sorted_insert_perm _ _ _))).
           now left.
      * destruct Hz as [Hz| ->]; auto.
        right. split; auto. intros y Hy.
        apply tuple_le_trans with top; auto.
        now apply tuple_ltb_false.
Qed.

Lemma fold_offer_keeps_best k l : forall h z,
  StronglySorted (fun a b => tuple_ltb b a = false) h ->
  kept_or_below k h z \/ In z l ->
  kept_or_below k (fold_left (offer k) l h) z.
Proof.
  induction l as [|x l IH]; intros h z Hs Hz; cbn [fold_left].
  - destruct Hz as [Hz|[]]. exact Hz.
  - apply IH; [now apply offer_ascending|].
    destruct Hz as [Hz|[Hz|Hz]]; auto;
      left; apply offer_keeps_best; auto.
Qed.

(** X8. [complete] keeps the best scores: a stored word that starts with
    [prefix] and is left out of [complete(prefix, k)] has a score no
    greater than the score of any word returned. *)
Theorem complete_keeps_best (self : Trie) (prefix : string) (k : Z)
    (w w' : string) (s s' : Q) :
  In w (complete self prefix k) -> score_of self w = Some s ->
  String.prefix prefix w' = true -> score_of self w' = Some s' ->
  ~ In w' (complete self prefix k) ->
  Qle s' s.
Proof.
  rewrite complete_eq.
  destruct (trace_node (root self) prefix) as [node|] eqn:Htr; [|contradiction].
  intros Hw Hs Hp Hs' Hout.
  assert (Hin' : In (s', w') (collect node prefix))
    by (apply (In_collect_score_of _ _ _ _ Htr); auto).
  pose proof (@fold_offer_keeps_best k (collect node prefix) [] (s', w')
                (SSorted_nil _) (or_intror Hin')) as [Hk|[_ Hall]].
  - exfalso. apply Hout. apply in_map_iff. exists (s', w').
    split; auto. now apply sorted_In.
  - apply in_map_iff in Hw as ([s0 w0] & Heq & Hw). cbn [snd] in Heq. subst w0.
    apply sorted_In in Hw. pose proof Hw as Hheap.
    apply fold_offer_In in Hw as [[]|Hw].
    apply (In_collect_score_of _ _ _ _ Htr) in Hw as [Hs0 _].
    assert (s0 = s) by congruence. subst s0.
    destruct (Hall _ Hheap) as [Hlt|[Heq _]]; cbn [fst] in *.
    + now apply Qlt_le_weak.
    + rewrite Heq. apply Qle_refl.
Qed.

Lemma complete_keeps_best_witness :
  let self := insert (insert (insert Trie_init "cat" 3%Q) "car" 9%Q) "can" 1%Q in
  In "car" (complete self "ca" 2) /\ ~ In "can" (complete self "ca" 2) /\
  Qle 1 9.
Proof.
  set (self := insert (insert (insert Trie_init "cat" 3%Q) "car" 9%Q) "can" 1%Q).
  assert (H1 : In "car" (complete self "ca" 2)) by (now left).
  assert (H2 : ~ In "can" (complete self "ca" 2)).
  { intros [H|[H|[]]]; discriminate. }
  split; [exact H1|]. split; [exact H2|].
  apply (@complete_keeps_best self "ca" 2 "car" "can" 9%Q 1%Q);
    auto; reflexivity.
Defined.

(** ** The height and the longest stored word *)

Lemma le_list_max (l : list nat) x : In x l -> (x <= list_max l)%nat.
Proof.
  intros Hin.
  assert (H : Forall (fun h => (h <= list_max l)%nat) l) by now apply list_max_le.
  rewrite Forall_forall in H. now apply H.
Qed.

Lemma le_list_sum (l : list nat) x : In x l -> (x <= list_sum l)%nat.
Proof.
  induction l as [|y l IH]; simpl; [contradiction|].
  intros [->|H]; [lia|]. specialize (IH H). lia.
Qed.

Lemma depth_trace text : forall n m,
  trace_node n text = Some m ->
  (String.length text + depth m <= depth n)%nat.
Proof.
  induction text as [|ch text IH]; intros n m Htr; cbn [trace_node] in Htr.
  - inversion Htr; subst. simpl. lia.
  - destruct (Dict.get (next n) ch) as [nxt|] eqn:E; [|discriminate].
    specialize (IH nxt m Htr). apply DictFacts.get_In in E.
    rewrite (depth_inner n) by (destruct (next n); [contradiction|discriminate]).
    assert (Hle : (depth nxt <= list_max (map (fun p => depth (snd p)) (next n)))%nat).
    { apply le_list_max. apply in_map_iff. exists (ch, nxt). auto. }
    simpl. lia.
Qed.

Lemma terminals_trace text : forall n m,
  trace_node n text = Some m -> end_ m = true -> (1 <= terminals n)%nat.
Proof.
  induction text as [|ch text IH]; intros n m Htr Hend; cbn [trace_node] in Htr.
  - inversion Htr; subst. rewrite terminals_eq, Hend. lia.
  - destruct (Dict.get (next n) ch) as [nxt|] eqn:E; [|discriminate].
    specialize (IH nxt m Htr Hend). apply DictFacts.get_In in E.
    rewrite terminals_eq. unfold Dict.total.
    assert (Hle : (terminals nxt
                   <= list_sum (map (fun p => terminals (snd p)) (next n)))%nat).
    { apply le_list_sum. apply in_map_iff. exists (ch, nxt). auto. }
    lia.
Qed.

(** Below a node in use, some word as long as the height is stored. *)
Lemma deepest_word n :
  wf n = true -> live n = true -> in_use n = true ->
  exists w m, trace_node n w = Some m /\ end_ m = true /\
              String.length w = depth n.
Proof.
  induction n as [nx e s IH] using Node_induction. intros Hwf Hl Hu.
  assert (Hc : nx = [] \/ nx <> []) by (destruct nx; [left|right]; congruence).
  destruct Hc as [->|Hne].
  - exists "", (Node_ [] e s). unfold in_use in Hu. simpl in Hu.
    repeat split; auto.
  - rewrite depth_inner by exact Hne. cbn [next].
    assert (Hmax : In (list_max (map (fun p => depth (snd p)) nx))
                      (map (fun p => depth (snd p)) nx)).
    { apply In_list_max. destruct nx; [congruence|discriminate]. }
    apply in_map_iff in Hmax as ([c ch] & Hd & Hin). cbn [snd] in Hd.
    destruct (live_child _ _ _ Hl Hin) as [Huc Hlc].
    pose proof (wf_child _ _ _ Hwf Hin) as Hwc.
    destruct (IH c ch Hin Hwc Hlc Huc) as (w & m & Htr & Hend & Hlen).
    exists (String c w), m. cbn [trace_node next String.length].
    pose proof (wf_keys _ Hwf) as Hk. cbn [next] in Hk.
    apply nodupb_NoDup in Hk.
    rewrite (dict_In_get _ _ _ Hk Hin). repeat split; auto. lia.
Qed.

(** X9. In a state reached from the empty trie, the height that [stats()]
    reports is the length of the longest stored word: no stored word is
    longer, some stored word is that long when the trie holds a word, and
    the height is 0 when it holds none. *)
Theorem height_is_longest_word (calls : list call) :
  let t := run calls in
  let height := snd (fst (stats t)) in
  (forall w, contains t w = true -> (String.length w <= height)%nat) /\
  (_count_words t <> 0 ->
   exists w, contains t w = true /\ String.length w = height) /\
  (_count_words t = 0 -> height = 0%nat).
Proof.
  intros t height. unfold height, stats. cbn [fst snd].
  destruct (invariant_run calls) as (Hwf & Hl & Hw & Hn).
  fold t in Hwf, Hl, Hw, Hn.
  split; [|split].
  - intros w Hc. rewrite contains_eq in Hc.
    destruct (trace_node (root t) w) as [m|] eqn:Htr; [|discriminate].
    pose proof (depth_trace _ _ Htr). lia.
  - intros Hne.
    assert (Hu : in_use (root t) = true).
    { unfold in_use. destruct (next (root t)) eqn:Enx; auto.
      destruct (end_ (root t)) eqn:Ee; auto.
      rewrite terminals_eq, Enx, Ee in Hw. simpl in Hw. lia. }
    destruct (deepest_word _ Hwf Hl Hu) as (w & m & Htr & Hend & Hlen).
    exists w. split; auto. now rewrite contains_eq, Htr.
  - intros H0.
    destruct (next (root t)) as [|[c ch] nx] eqn:Enx;
      [now rewrite depth_eq, Enx|].
    exfalso.
    assert (Hin : In (c, ch) (next (root t))) by (rewrite Enx; now left).
    destruct (live_child _ _ _ Hl Hin) as [Huc Hlc].
    destruct (in_use_has_word _ Huc Hlc) as (w & s' & Hsw).
    unfold score_at in Hsw.
    destruct (trace_node ch w) as [m|] eqn:Htr; [|discriminate].
    destruct (end_ m) eqn:Hend; [|discriminate].
    assert (Htr' : trace_node (root t) (String c w) = Some m).
    { cbn [trace_node]. rewrite Enx. cbn [Dict.get].
      now rewrite Ascii.eqb_refl. }
    pose proof (terminals_trace _ _ Htr' Hend). lia.
Qed.

Lemma height_is_longest_word_witness :
  let t := run [Insert "a" 1%Q; Insert "abc" 2%Q; Remove "abc"] in
  _count_words t <> 0 /\
  exists w, contains t w = true /\ String.length w = snd (fst (stats t)).
Proof.
  assert (H : _count_words
                (run [Insert "a" 1%Q; Insert "abc" 2%Q; Remove "abc"]) <> 0)
    by discriminate.
  split; [exact H|].
  exact (proj1 (proj2 (@height_is_longest_word
                         [Insert "a" 1%Q; Insert "abc" 2%Q; Remove "abc"])) H).
Defined.

(** ** [complete] with an empty prefix and [items] *)

(** X10. In a state reached from the empty trie, [complete("", k)] with
    [k >= word_count] returns all the words that [items()] lists, each
    once. *)
Theorem complete_all_words (calls : list call) (k : Z) :
  _count_words (run calls) <= k ->
  Permutation (complete (run calls) "" k) (map fst (items (run calls))).
Proof.
  intros Hk. set (t := run calls) in *.
  destruct (invariant_run calls) as (Hwf & _ & Hw & _). fold t in Hwf, Hw.
  pose proof (listing_collect (root t) "" Hwf) as Hperm.
  rewrite complete_eq, items_listing. cbn [trace_node].
  apply perm_trans with (map snd (collect (root t) "")).
  - apply Permutation_map.
    apply perm_trans with (fold_left (offer k) (collect (root t) "") []).
    + apply sorted_perm.
    + apply (@fold_offer_room k (collect (root t) "") []).
      cbn [List.length Nat.add].
      rewrite <- (length_map (fun x : Q * string => (snd x, fst x))).
      rewrite <- (Permutation_length Hperm), length_listing. lia.
  - apply Permutation_sym.
    apply perm_trans with
      (map fst (map (fun x : Q * string => (snd x, fst x))
                    (collect (root t) ""))).
    + now apply Permutation_map.
    + rewrite map_map. apply Permutation_refl.
Qed.

Lemma complete_all_words_witness :
  let calls := [Insert "cat" 3%Q; Insert "car" 9%Q; Insert "" 1%Q] in
  _count_words (run calls) <= 3 /\
  Permutation (complete (run calls) "" 3) (map fst (items (run calls))).
Proof.
  assert (H : _count_words
                (run [Insert "cat" 3%Q; Insert "car" 9%Q; Insert "" 1%Q]) <= 3)
    by (simpl; lia).
  split; [exact H|].
  exact (@complete_all_words
           [Insert "cat" 3%Q; Insert "car" 9%Q; Insert "" 1%Q] 3 H).
Defined.

(** ** The visit of [complete] is in alphabetical order *)

Lemma ascii_ltb_lt a b :
  Ascii.ltb a b = true <-> (N_of_ascii a < N_of_ascii b)%N.
Proof.
  unfold Ascii.ltb, Ascii.compare. rewrite <- N.compare_lt_iff.
  destruct (N_of_ascii a ?= N_of_ascii b)%N; split; auto; discriminate.
Qed.

Lemma ascii_ltb_ge a b :
  Ascii.ltb a b = false <-> (N_of_ascii b <= N_of_ascii a)%N.
Proof.
  destruct (Ascii.ltb a b) eqn:E.
  - apply ascii_ltb_lt in E. split; [discriminate | lia].
  - split; auto. intros _.
    destruct (N.le_gt_cases (N_of_ascii b) (N_of_ascii a)) as [H|H]; auto.
    apply ascii_ltb_lt in H. congruence.
Qed.

Lemma N_of_ascii_inj a b : N_of_ascii a = N_of_ascii b -> a = b.
Proof.
  intros H. rewrite <- (ascii_N_embedding a), <- (ascii_N_embedding b).
  now rewrite H.
Qed.

Lemma sorted_keys_ascending (l : list ascii) :
  NoDup l ->
  StronglySorted (fun a b => Ascii.compare a b = Lt) (sorted Ascii.ltb l).
Proof.
  intros Hnd.
  assert (Hs : StronglySorted (fun a b => Ascii.ltb b a = false)
                 (sorted Ascii.ltb l)).
  { apply sorted_ordered.
    - intros a b H. apply ascii_ltb_lt in H. apply ascii_ltb_ge. lia.
    - intros a b c H1 H2. rewrite ascii_ltb_ge in *. lia. }
  assert (Hnd' : NoDup (sorted Ascii.ltb l)).
  { apply Permutation_NoDup with l; auto. apply Permutation_sym, sorted_perm. }
  induction Hs as [|a l' Hs IH Ha]; constructor.
  - apply IH. now inversion Hnd'.
  - inversion Hnd' as [|? ? Hnotin _]; subst.
    rewrite Forall_forall in *. intros b Hb.
    specialize (Ha b Hb). apply ascii_ltb_ge in Ha.
    unfold Ascii.compare. apply N.compare_lt_iff.
    assert (N_of_ascii a <> N_of_ascii b).
    { intros H. apply N_of_ascii_inj in H. subst. contradiction. }
    lia.
Qed.

Lemma string_compare_app p a b :
  String.compare (p ++ a) (p ++ b) = String.compare a b.
Proof.
  induction p as [|c p IH]; simpl; auto. now rewrite ascii_compare_refl.
Qed.

Lemma StronglySorted_app (B : Type) (R : B -> B -> Prop) l1 l2 :
  StronglySorted R l1 -> StronglySorted R l2 ->
  (forall a b, In a l1 -> In b l2 -> R a b) ->
  StronglySorted R (l1 ++ l2).
Proof.
  intros H1 H2 H. induction H1 as [|x l1 H1 IH Hx]; simpl; auto.
  constructor.
  - apply IH. intros a b Ha. apply H. now right.
  - apply Forall_app. split; auto.
    apply Forall_forall. intros b Hb. apply H; auto. now left.
Qed.

Lemma StronglySorted_flat_map (B C : Type) (Rk : B -> B -> Prop)
    (R : C -> C -> Prop) (f : B -> list C) ks :
  StronglySorted Rk ks ->
  (forall k, In k ks -> StronglySorted R (f k)) ->
  (forall k k' a b, Rk k k' -> In a (f k) -> In b (f k') -> R a b) ->
  StronglySorted R (flat_map f ks).
Proof.
  intros Hs Hf Hc. induction Hs as [|k ks Hs IH Hk]; simpl; [constructor|].
  apply StronglySorted_app.
  - apply Hf. now left.
  - apply IH. intros k' Hk'. apply Hf. now right.
  - intros a b Ha Hb. apply in_flat_map in Hb as (k' & Hk' & Hb).
    rewrite Forall_forall in Hk. exact (Hc k k' a b (Hk _ Hk') Ha Hb).
Qed.

(** With unique keys, the words of the visit come in strictly ascending
    alphabetical order. *)
Lemma collect_ascending n : forall word,
  wf n = true ->
  StronglySorted (fun a b => String.compare (snd a) (snd b) = Lt)
                 (collect n word).
Proof.
  induction n as [nx e sc IH] using Node_induction. intros word Hwf.
  rewrite collect_eq. cbn [next end_ score].
  pose proof (wf_keys _ Hwf) as Hk. cbn [next] in Hk.
  apply nodupb_NoDup in Hk.
  apply StronglySorted_app.
  - destruct e; repeat constructor.
  - apply StronglySorted_flat_map
      with (Rk := fun a b => Ascii.compare a b = Lt).
    + now apply sorted_keys_ascending.
    + intros c _. destruct (Dict.get nx c) as [ch|] eqn:E; [|constructor].
      apply DictFacts.get_In in E. apply (IH c ch E).
      exact (wf_child _ _ _ Hwf E).
    + intros c c' [s w] [s' w'] Hcc Ha Hb.
      destruct (Dict.get nx c) as [ch|]; [|contradiction].
      destruct (Dict.get nx c') as [ch'|]; [|contradiction].
      apply In_collect in Ha as (sa & ma & -> & _).
      apply In_collect in Hb as (sb & mb & -> & _).
      cbn [snd]. rewrite !append_snoc, string_compare_app. simpl.
      now rewrite Hcc.
  - intros [s w] [s' w'] Ha Hb.
    destruct e; [|contradiction]. destruct Ha as [Ha|[]].
    inversion Ha; subst. apply in_flat_map in Hb as (c & _ & Hb).
    destruct (Dict.get nx c) as [ch|]; [|contradiction].
    apply In_collect in Hb as (sb & mb & -> & _).
    cbn [snd]. rewrite append_snoc.
    rewrite <- (append_nil_r w) at 1. now rewrite string_compare_app.
Qed.

Lemma StronglySorted_unique (B : Type) (R : B -> B -> Prop) :
  (forall x, ~ R x x) -> (forall x y z, R x y -> R y z -> R x z) ->
  forall l1 l2,
    StronglySorted R l1 -> StronglySorted R l2 ->
    (forall x, In x l1 <-> In x l2) -> l1 = l2.
Proof.
  intros Hirr Htrans l1 l2 H1. revert l2.
  induction H1 as [|x l1 H1 IH Hx]; intros l2 H2 Hin.
  - destruct l2 as [|y l2]; auto. exfalso. apply (Hin y). now left.
  - destruct H2 as [|y l2 H2 Hy].
    + exfalso. apply (Hin x). now left.
    + rewrite Forall_forall in Hx, Hy.
      assert (Hxy : x = y).
      { destruct (proj1 (Hin x) (or_introl eq_refl)) as [Heq|Hx2]; auto.
        destruct (proj2 (Hin y) (or_introl eq_refl)) as [Heq|Hy1]; auto.
        exfalso. apply (Hirr x). eauto. }
      subst y. f_equal. apply IH; auto.
      intros z. split; intros Hz.
      * destruct (proj1 (Hin z) (or_intror Hz)) as [Heq|Hz2]; auto.
        subst z. exfalso. apply (Hirr x). auto.
      * destruct (proj2 (Hin z) (or_intror Hz)) as [Heq|Hz1]; auto.
        subst z. exfalso. apply (Hirr x). auto.
Qed.

Lemma In_offered self prefix s w :
  In (s, w) (offered self prefix) <->
  score_of self w = Some s /\ String.prefix prefix w = true.
Proof.
  unfold offered.
  destruct (trace_node (root self) prefix) as [node|] eqn:Htr.
  - now apply In_collect_score_of.
  - split; [contradiction|]. intros [Hs Hp].
    apply prefix_append in Hp as [suffix ->].
    unfold score_of, score_at in Hs.
    rewrite trace_node_app, Htr in Hs. discriminate.
Qed.

Lemma complete_offered self prefix k :
  complete self prefix k =
  map snd (sorted key_ltb (fold_left (offer k) (offered self prefix) [])).
Proof.
  rewrite complete_eq. unfold offered.
  now destruct (trace_node (root self) prefix).
Qed.

(** X11. [complete] depends on the stored words and their scores only, not
    on the order in which the words were inserted: two tries with unique
    keys in which every word has the same score give the same list for
    every prefix and every [k]. *)
Theorem complete_depends_on_contents (t1 t2 : Trie) (prefix : string) (k : Z) :
  wf (root t1) = true -> wf (root t2) = true ->
  (forall w, score_of t1 w = score_of t2 w) ->
  complete t1 prefix k = complete t2 prefix k.
Proof.
  intros Hwf1 Hwf2 Hsame. rewrite !complete_offered.
  assert (Hs : forall t, wf (root t) = true ->
             StronglySorted (fun a b => String.compare (snd a) (snd b) = Lt)
                            (offered t prefix)).
  { intros t Hwf. unfold offered.
    destruct (trace_node (root t) prefix) as [node|] eqn:Htr; [|constructor].
    apply collect_ascending. exact (wf_trace _ _ Hwf Htr). }
  assert (Heq : offered t1 prefix = offered t2 prefix).
  { apply StronglySorted_unique
      with (R := fun a b : Q * string => String.compare (snd a) (snd b) = Lt);
      auto.
    - intros x. now rewrite string_compare_refl.
    - intros x y z. apply string_lt_trans.
    - intros [s w]. now rewrite !In_offered, Hsame. }
  now rewrite Heq.
Qed.

Lemma complete_depends_on_contents_witness :
  let t1 := insert (insert Trie_init "cat" 3%Q) "car" 9%Q in
  let t2 := insert (insert Trie_init "car" 9%Q) "cat" 3%Q in
  t1 <> t2 /\ complete t1 "c" 1 = complete t2 "c" 1.
Proof.
  split; [discriminate|].
  apply (@complete_depends_on_contents
           (insert (insert Trie_init "cat" 3%Q) "car" 9%Q)
           (insert (insert Trie_init "car" 9%Q) "cat" 3%Q) "c" 1);
    try reflexivity.
  intros w. rewrite !score_of_insert.
  destruct (String.eqb_spec w "car") as [Hcar|Hcar];
    destruct (String.eqb_spec w "cat") as [Hcat|Hcat];
    try reflexivity; congruence.
Defined.

(** ** How many words [complete] returns *)

Lemma offer_length_exact k h x :
  List.length (offer k h x) =
  if Z.ltb (Z.of_nat (List.length h)) k then S (List.length h)
  else List.length h.
Proof.
  unfold offer, heapq.heappush, heapq.heappushpop.
  destruct (Z.ltb (Z.of_nat (List.length h)) k).
  - apply sorted_insert_length.
  - destruct h as [|top rest]; auto.
    destruct (tuple_ltb top x); auto. apply sorted_insert_length.
Qed.

Lemma fold_offer_length_exact k l : forall h,
  Z.of_nat (List.length h) <= Z.max 0 k ->
  Z.of_nat (List.length (fold_left (offer k) l h)) =
  Z.min (Z.max 0 k) (Z.of_nat (List.length h + List.length l)).
Proof.
  induction l as [|x l IH]; intros h Hh; cbn [fold_left List.length].
  - rewrite Nat.add_0_r. lia.
  - rewrite IH.
    + rewrite offer_length_exact.
      destruct (Z.ltb_spec (Z.of_nat (List.length h)) k); lia.
    + now apply offer_length.
Qed.

(** X12. With unique keys and [k >= 0], [complete(prefix, k)] returns
    exactly [min(k, n)] words, where [n] is the number of stored words that
    start with [prefix]. *)
Theorem complete_length (self : Trie) (prefix : string) (k : Z)
    (ws : list string) :
  wf (root self) = true -> 0 <= k ->
  NoDup ws ->
  (forall w, In w ws <->
             String.prefix prefix w = true /\ contains self w = true) ->
  Z.of_nat (List.length (complete self prefix k)) =
  Z.min k (Z.of_nat (List.length ws)).
Proof.
  intros Hwf Hk Hnd Hws.
  rewrite complete_offered, length_map, (Permutation_length (sorted_perm _ _)).
  rewrite fold_offer_length_exact by (simpl; lia). cbn [List.length Nat.add].
  assert (Hlen : List.length (offered self prefix) = List.length ws).
  { rewrite <- (length_map snd). apply Permutation_length.
    apply NoDup_Permutation; auto.
    - unfold offered.
      destruct (trace_node (root self) prefix) as [node|] eqn:Htr;
        [|constructor].
      apply NoDup_collect. exact (wf_trace _ _ Hwf Htr).
    - intros w. rewrite Hws, contains_score_of. split.
      + intros H. apply in_map_iff in H as ([s w'] & <- & H).
        apply In_offered in H as [Hs Hp]. eauto.
      + intros [Hp [s Hs]]. apply in_map_iff. exists (s, w).
        split; auto. apply In_offered. auto. }
  rewrite Hlen. lia.
Qed.

Lemma complete_length_witness :
  let self := insert (insert Trie_init "cat" 3%Q) "car" 9%Q in
  Z.of_nat (List.length (complete self "cat" 5)) = Z.min 5 1.
Proof.
  set (self := insert (insert Trie_init "cat" 3%Q) "car" 9%Q).
  assert (Hwf : wf (root self) = true) by reflexivity.
  assert (Hk : 0 <= 5) by lia.
  apply (@complete_length self "cat" 5 ["cat"] Hwf Hk).
  - repeat constructor. intros [].
  - intros w. split.
    + intros [<-|[]]. split; reflexivity.
    + intros [Hp Hc]. apply prefix_append in Hp as [suffix ->].
      destruct suffix as [|c suffix]; [now left|].
      rewrite contains_eq, trace_node_app in Hc. discriminate.
Defined.

(** X13. [complete(prefix, k)] is empty for every [k <= 0], negative
    values included. *)
Theorem complete_nonpositive (self : Trie) (prefix : string) (k : Z) :
  k <= 0 -> complete self prefix k = [].
Proof.
  intros Hk. rewrite complete_offered. now rewrite fold_offer_none.
Qed.

Lemma complete_nonpositive_witness :
  -1 <= 0 /\ complete (insert Trie_init "cat" 3%Q) "c" (-1) = [].
Proof.
  assert (H : -1 <= 0) by lia.
  split; [exact H|].
  exact (@complete_nonpositive (insert Trie_init "cat" 3%Q) "c" (-1) H).
Defined.

(** ** The tree holds the prefixes of the stored words and nothing else *)

Lemma live_below text : forall n m,
  live n = true -> trace_node n text = Some m -> live m = true.
Proof.
  induction text as [|ch text IH]; intros n m Hl Htr; cbn [trace_node] in Htr.
  - now inversion Htr; subst.
  - destruct (Dict.get (next n) ch) as [nxt|] eqn:E; [|discriminate].
    apply DictFacts.get_In in E.
    destruct (live_child _ _ _ Hl E) as [_ Hln]. exact (IH nxt m Hln Htr).
Qed.

(** X14. In a state reached from the empty trie, [_trace(text)] finds a
    node exactly when [text] is empty or a prefix of a stored word: the
    tree has no branch that leads to no word. *)
Theorem traced_iff_prefix_of_word (calls : list call) (text : string) :
  fst (_trace (run calls) text) <> None <->
  text = "" \/
  exists w, String.prefix text w = true /\ contains (run calls) w = true.
Proof.
  set (t := run calls). rewrite fst_trace.
  destruct (invariant_run calls) as (_ & Hl & _). fold t in Hl.
  split.
  - intros Htr. destruct (trace_node (root t) text) as [m|] eqn:Hm;
      [|congruence].
    destruct text as [|c text]; [now left|]. right.
    assert (Hu : in_use m = true)
      by (apply (@live_trace _ _ _ Hl Hm); discriminate).
    pose proof (@live_below _ _ _ Hl Hm) as Hlm.
    destruct (in_use_has_word _ Hu Hlm) as (w & s & Hs).
    exists (String c text ++ w)%string. split.
    + apply prefix_append. eauto.
    + apply contains_score_of. exists s. unfold score_of, score_at in *.
      now rewrite trace_node_app, Hm.
  - intros [->|(w & Hp & Hc)]; [discriminate|].
    apply prefix_append in Hp as [suffix ->].
    rewrite contains_eq, trace_node_app in Hc.
    destruct (trace_node (root t) text); [discriminate | discriminate].
Qed.

(** ** The order of [items] *)

Lemma In_listing n text w s :
  wf n = true ->
  In (w, s) (listing n text) <->
  exists suffix, w = (text ++ suffix)%string /\ score_at n suffix = Some s.
Proof.
  intros Hwf. pose proof (listing_collect n text Hwf) as Hperm.
  assert (Hc : In (s, w) (collect n text) <->
               exists suffix, w = (text ++ suffix)%string /\
                              score_at n suffix = Some s).
  { rewrite In_collect. unfold score_at. split.
    - intros (suffix & m & -> & Htr & Hend & Hs). exists suffix.
      now rewrite Htr, Hend, Hs.
    - intros (suffix & -> & Hs).
      destruct (trace_node n suffix) as [m|] eqn:Htr; [|discriminate].
      destruct (end_ m) eqn:Hend; [|discriminate].
      exists suffix, m. inversion Hs. auto. }
  rewrite <- Hc. split.
  - intros H. apply (Permutation_in _ Hperm) in H.
    apply in_map_iff in H as ([s' w'] & Heq & H). now inversion Heq; subst.
  - intros H. apply (Permutation_in _ (Permutation_sym Hperm)).
    apply in_map_iff. exists (s, w). auto.
Qed.

(** [gather] records a word before the words that extend it. *)
Lemma listing_prefix_first w suffix : forall n text s s',
  wf n = true -> suffix <> "" ->
  score_at n w = Some s -> score_at n (w ++ suffix) = Some s' ->
  exists l1 l2 l3,
    listing n text =
    l1 ++ ((text ++ w)%string, s) :: l2 ++
    ((text ++ w ++ suffix)%string, s') :: l3.
Proof.
  induction w as [|c w IH]; intros n text s s' Hwf Hne Hs Hs'.
  - assert (Hin : In ((text ++ suffix)%string, s') (listing n text)).
    { apply In_listing; eauto. }
    rewrite listing_eq in *. unfold score_at in Hs. cbn [trace_node] in Hs.
    destruct (end_ n); [|discriminate]. inversion Hs; subst s.
    cbn [app] in *. destruct Hin as [Heq|Hin].
    + exfalso. destruct suffix as [|c suffix]; [congruence|].
      apply (f_equal fst) in Heq. cbn [fst] in Heq. symmetry in Heq.
      exact (append_neq_self _ _ Heq).
    + apply in_split in Hin as (l2 & l3 & Hsplit).
      exists [], l2, l3. cbn [app String.append].
      rewrite append_nil_r. now rewrite Hsplit.
  - cbn [String.append] in Hs'. rewrite score_at_cons in Hs, Hs'.
    destruct (Dict.get (next n) c) as [ch|] eqn:E; [|discriminate].
    apply DictFacts.get_In in E.
    pose proof (wf_child _ _ _ Hwf E) as Hwc.
    destruct (IH ch (text ++ String c "")%string s s' Hwc Hne Hs Hs')
      as (l1 & l2 & l3 & Hl).
    rewrite !append_snoc in Hl.
    apply in_split in E as (a & b & Hnx).
    rewrite listing_eq, Hnx, flat_map_app. cbn [flat_map fst snd].
    rewrite Hl.
    exists ((if end_ n then [(text, score n)] else []) ++
            flat_map (fun p => listing (snd p)
                                 (text ++ String (fst p) "")%string) a ++ l1),
           l2,
           (l3 ++ flat_map (fun p => listing (snd p)
                                       (text ++ String (fst p) "")%string) b).
    cbn [String.append].
    repeat (rewrite <- app_assoc; cbn [app]). reflexivity.
Qed.

(** X15. In a state reached from the empty trie, [items()] lists a stored
    word before every stored word that properly extends it. *)
Theorem items_prefix_first (calls : list call) (w suffix : string) (s s' : Q) :
  suffix <> "" ->
  score_of (run calls) w = Some s ->
  score_of (run calls) (w ++ suffix) = Some s' ->
  exists l1 l2 l3,
    items (run calls) = l1 ++ (w, s) :: l2 ++ ((w ++ suffix)%string, s') :: l3.
Proof.
  intros Hne Hs Hs'. rewrite items_listing.
  destruct (invariant_run calls) as (Hwf & _).
  exact (listing_prefix_first w (root (run calls)) "" Hwf Hne Hs Hs').
Qed.

Lemma items_prefix_first_witness :
  let calls := [Insert "cat" 3%Q; Insert "dog" 1%Q; Insert "ca" 9%Q] in
  exists l1 l2 l3,
    items (run calls) = l1 ++ ("ca", 9%Q) :: l2 ++ ("cat", 3%Q) :: l3.
Proof.
  apply (@items_prefix_first
           [Insert "cat" 3%Q; Insert "dog" 1%Q; Insert "ca" 9%Q] "ca" "t").
  - discriminate.
  - reflexivity.
  - reflexivity.
Defined.
